(** * kubetest2-gke deployer: location selection, instance-group pattern,
      defaults and retry bookkeeping

    A shallow embedding of [kubetest2-gke/deployer/deployer.go].  Go values
    are modelled as follows:
    - [int] as [Z] (the code only compares and indexes, no arithmetic that
      could wrap);
    - [string] as [String.string], a sequence of bytes;
    - [[]string] as [list string] (a nil slice and an empty slice both have
      length 0, which is all the code observes);
    - a run-time panic as the [Panic] constructor of [Go.result]. *)

From Stdlib Require Import ZArith List String Ascii Bool Lia.
Import ListNotations.

Local Open Scope string_scope.
Local Open Scope Z_scope.

(** ** The fragment of the Go language and of package [strings] the file uses *)

Module Go.

Inductive panic : Type :=
| IndexOutOfRange (i length : Z)
| SliceBoundsOutOfRange (hi length : Z)
| RegexpMustCompile (expr : string).

Inductive result (A : Type) : Type :=
| Ok (a : A)
| Panic (p : panic).

Arguments Ok {A} a.
Arguments Panic {A} p.

Definition bind {A B : Type} (x : result A) (f : A -> result B) : result B :=
  match x with
  | Ok a => f a
  | Panic p => Panic p
  end.

(** [len(l)] of a slice. *)
Definition len {A : Type} (l : list A) : Z := Z.of_nat (List.length l).

(** [len(s)] of a string: its number of bytes. *)
Definition strlen (s : string) : Z := Z.of_nat (String.length s).

(** [l[i]]: panics unless [0 <= i < len(l)]. *)
Definition index {A : Type} (l : list A) (i : Z) : result A :=
  if (0 <=? i) && (i <? len l) then
    match nth_error l (Z.to_nat i) with
    | Some a => Ok a
    | None => Panic (IndexOutOfRange i (len l))
    end
  else Panic (IndexOutOfRange i (len l)).

(** [s[lo:hi]] on a string: panics unless [0 <= lo <= hi <= len(s)]. *)
Definition slice (s : string) (lo hi : Z) : result string :=
  if (0 <=? lo) && (lo <=? hi) && (hi <=? strlen s) then
    Ok (substring (Z.to_nat lo) (Z.to_nat (hi - lo)) s)
  else Panic (SliceBoundsOutOfRange hi (strlen s)).

(** [strings.HasPrefix(s, prefix)]. *)
Fixpoint HasPrefix (s prefix : string) {struct prefix} : bool :=
  match prefix with
  | EmptyString => true
  | String c prefix' =>
      match s with
      | EmptyString => false
      | String d s' => Ascii.eqb c d && HasPrefix s' prefix'
      end
  end.

(** [strings.Index(s, substr)]: the byte index of the first instance of
    [substr] in [s], or -1. *)
Fixpoint Index (s substr : string) : Z :=
  match s with
  | EmptyString => if HasPrefix s substr then 0 else -1
  | String _ s' =>
      if HasPrefix s substr then 0
      else let r := Index s' substr in if r <? 0 then -1 else r + 1
  end.

(** [strings.LastIndex(s, substr)]: the byte index of the last instance of
    [substr] in [s], or -1. *)
Fixpoint LastIndex (s substr : string) : Z :=
  match s with
  | EmptyString => if HasPrefix s substr then 0 else -1
  | String _ s' =>
      let r := LastIndex s' substr in
      if 0 <=? r then r + 1
      else if HasPrefix s substr then 0 else -1
  end.

(** [strings.Contains(s, substr)], which is [Index(s, substr) >= 0]. *)
Definition Contains (s substr : string) : bool := 0 <=? Index s substr.

End Go.

Notation "x <- c1 ;; c2" := (Go.bind c1 (fun x => c2))
  (at level 61, c1 at next level, right associativity).

Import Go.

(** ** Package [regexp], as far as the deployer's patterns need it

    Go's [regexp] implements RE2 syntax with leftmost-first (Perl-like)
    submatch semantics: among the matches starting at the leftmost possible
    position it reports the one a backtracking search would find first.
    The matcher below is that backtracking search, written with
    continuations.

    The matcher works on bytes where Go works on UTF-8 code points.  For
    the patterns of this file the two agree on every input: each [.] and
    negated class is repeated between ASCII literals or the ends of a line
    or of the text, an ASCII byte is always a code point of its own, and
    every byte of a longer encoding differs from newline and from [/]. *)

Module regexp.

(** The syntax tree, named after the operators of [regexp/syntax]. *)
Inductive regex : Type :=
| EmptyMatch
| Literal (c : ascii)
| AnyCharNotNL
| CharClass (negated : bool) (ranges : list (ascii * ascii))
| BeginText
| EndText
| Capture (i : nat) (r : regex)
| Star (r : regex)
| Plus (r : regex)
| Quest (r : regex)
| Repeat (n : nat) (r : regex)
| Concat (r1 r2 : regex)
| Alternate (r1 r2 : regex).

Record Regexp : Type := mkRegexp {
  expr : string;       (* as passed to Compile *)
  prog : regex;
  numSubexp : nat
}.

(** *** Parsing a pattern

    A recursive-descent parser for the part of the syntax the deployer's
    patterns are written in: literals, [.], [^], [$], bracket classes of
    single characters and ranges, [(...)] capture groups, [|], and the
    greedy repetitions [*], [+], [?] and [{n}].  Anything else (flags,
    non-greedy repetition, escapes other than an escaped punctuation
    character, [{n,m}]) is refused with [None]. *)

Definition in_range (lo hi c : ascii) : bool :=
  Nat.leb (nat_of_ascii lo) (nat_of_ascii c) &&
  Nat.leb (nat_of_ascii c) (nat_of_ascii hi).

Definition is_special (c : ascii) : bool :=
  existsb (Ascii.eqb c)
    (list_ascii_of_string "\.+*?()|[]{}^$").

Definition is_digit (c : ascii) : bool := in_range "0" "9" c.

(** Punctuation that a backslash turns into a literal. *)
Definition is_punct (c : ascii) : bool :=
  (in_range "!" "/" c || in_range ":" "@" c ||
   in_range "[" "`" c || in_range "{" "~" c)%bool.

Definition class_special (c : ascii) : bool :=
  existsb (Ascii.eqb c) (list_ascii_of_string "\[]-^").

(** The items of a bracket class up to and including the closing bracket. *)
Fixpoint parse_class_items (s : string)
  : option (list (ascii * ascii) * string) :=
  match s with
  | EmptyString => None
  | String c rest =>
      if Ascii.eqb c "]" then Some ([], rest)
      else if class_special c then None
      else
        match rest with
        | String "-" (String hi rest') =>
            if class_special hi || negb (Nat.leb (nat_of_ascii c) (nat_of_ascii hi))
            then None
            else
              match parse_class_items rest' with
              | Some (items, rest'') => Some ((c, hi) :: items, rest'')
              | None => None
              end
        | _ =>
            match parse_class_items rest with
            | Some (items, rest'') => Some ((c, c) :: items, rest'')
            | None => None
            end
        end
  end.

Definition parse_class (negated : bool) (s : string) : option (regex * string) :=
  match parse_class_items s with
  | Some (item :: items, rest) => Some (CharClass negated (item :: items), rest)
  | _ => None
  end.

(** A decimal repeat count followed by the closing brace. *)
Fixpoint parse_count (acc : nat) (seen : bool) (s : string) : option (nat * string) :=
  match s with
  | EmptyString => None
  | String c rest =>
      if is_digit c then
        parse_count (10 * acc + (nat_of_ascii c - nat_of_ascii "0")) true rest
      else if Ascii.eqb c "}" && seen && Nat.leb acc 1000 then Some (acc, rest)
      else None
  end.

(** No second repetition operator may follow one. *)
Definition no_repetition_next (s : string) : bool :=
  match s with
  | String c _ => negb (existsb (Ascii.eqb c) (list_ascii_of_string "*+?{"))
  | EmptyString => true
  end.

Definition parse_postfix (r : regex) (s : string) : option (regex * string) :=
  match s with
  | String "*" rest => if no_repetition_next rest then Some (Star r, rest) else None
  | String "+" rest => if no_repetition_next rest then Some (Plus r, rest) else None
  | String "?" rest => if no_repetition_next rest then Some (Quest r, rest) else None
  | String "{" rest =>
      match parse_count 0 false rest with
      | Some (n, rest') =>
          if no_repetition_next rest' then Some (Repeat n r, rest') else None
      | None => None
      end
  | _ => Some (r, s)
  end.

Definition mkConcat (r1 r2 : regex) : regex :=
  match r2 with
  | EmptyMatch => r1
  | _ => Concat r1 r2
  end.

(** [n] is the number the next capture group gets: groups are numbered by
    their opening parenthesis, from 1. *)
Fixpoint parse_alt (fuel n : nat) (s : string) {struct fuel}
  : option (regex * nat * string) :=
  match fuel with
  | O => None
  | S fuel' =>
      match parse_cat fuel' n s with
      | Some (r1, n1, String "|" rest) =>
          match parse_alt fuel' n1 rest with
          | Some (r2, n2, rest') => Some (Alternate r1 r2, n2, rest')
          | None => None
          end
      | other => other
      end
  end
with parse_cat (fuel n : nat) (s : string) {struct fuel}
  : option (regex * nat * string) :=
  match fuel with
  | O => None
  | S fuel' =>
      match s with
      | EmptyString | String "|" _ | String ")" _ => Some (EmptyMatch, n, s)
      | _ =>
          match parse_atom fuel' n s with
          | Some (a, n1, rest) =>
              match parse_postfix a rest with
              | Some (piece, rest') =>
                  match parse_cat fuel' n1 rest' with
                  | Some (r2, n2, rest'') => Some (mkConcat piece r2, n2, rest'')
                  | None => None
                  end
              | None => None
              end
          | None => None
          end
      end
  end
with parse_atom (fuel n : nat) (s : string) {struct fuel}
  : option (regex * nat * string) :=
  match fuel with
  | O => None
  | S fuel' =>
      match s with
      | EmptyString => None
      | String "(" (String "?" _) => None
      | String "(" rest =>
          match parse_alt fuel' (S n) rest with
          | Some (r, n', String ")" rest') => Some (Capture n r, n', rest')
          | _ => None
          end
      | String "[" (String "^" rest) =>
          match parse_class true rest with
          | Some (r, rest') => Some (r, n, rest')
          | None => None
          end
      | String "[" rest =>
          match parse_class false rest with
          | Some (r, rest') => Some (r, n, rest')
          | None => None
          end
      | String "." rest => Some (AnyCharNotNL, n, rest)
      | String "^" rest => Some (BeginText, n, rest)
      | String "$" rest => Some (EndText, n, rest)
      | String "\" (String c rest) =>
          if is_punct c then Some (Literal c, n, rest) else None
      | String c rest =>
          if is_special c then None else Some (Literal c, n, rest)
      end
  end.

(** [regexp.Compile]; [None] stands for its error. *)
Definition Compile (e : string) : option Regexp :=
  match parse_alt (4 * String.length e + 4) 1 e with
  | Some (r, n, EmptyString) => Some (mkRegexp e r (n - 1))
  | _ => None
  end.

(** [regexp.MustCompile] panics where [Compile] fails. *)
Definition MustCompile (e : string) : Go.result Regexp :=
  match Compile e with
  | Some re => Go.Ok re
  | None => Go.Panic (Go.RegexpMustCompile e)
  end.

(** *** Matching *)

Definition newline : ascii := ascii_of_nat 10.

Definition class_mem (negated : bool) (ranges : list (ascii * ascii)) (c : ascii)
  : bool :=
  xorb negated (existsb (fun r => in_range (fst r) (snd r) c) ranges).

(** Submatch positions: entry [i] holds the byte offsets [(start, end)] of
    group [i], group 0 being the whole match. *)
Definition caps : Type := list (option (nat * nat)).

Fixpoint set_cap (i : nat) (v : nat * nat) (cs : caps) : caps :=
  match cs, i with
  | [], _ => []
  | _ :: cs', O => Some v :: cs'
  | c :: cs', S i' => c :: set_cap i' v cs'
  end.

(** A continuation receives the offset reached, the input left and the
    submatches so far. *)
Definition cont : Type := nat -> string -> caps -> option caps.

Definition step (p : ascii -> bool) (k : cont) : cont :=
  fun pos rest cs =>
    match rest with
    | String c rest' => if p c then k (S pos) rest' cs else None
    | EmptyString => None
    end.

(** Greedy iteration of [body]: one more iteration is tried first, and
    only iterations that consume input are taken, so [fuel] = the length
    of the input left is never exhausted.  (What Go reports for a repeated
    body that matches the empty string is not modelled; the deployer's
    patterns repeat single characters only.) *)
Fixpoint star_loop (body : cont -> cont) (fuel : nat) (k : cont) : cont :=
  fun pos rest cs =>
    match fuel with
    | O => k pos rest cs
    | S fuel' =>
        match body (fun pos' rest' cs' =>
                      if Nat.ltb pos pos'
                      then star_loop body fuel' k pos' rest' cs'
                      else None) pos rest cs with
        | Some out => Some out
        | None => k pos rest cs
        end
    end.

Fixpoint repeat_n (body : cont -> cont) (n : nat) (k : cont) : cont :=
  match n with
  | O => k
  | S n' => body (repeat_n body n' k)
  end.

Fixpoint m (r : regex) (k : cont) {struct r} : cont :=
  fun pos rest cs =>
    match r with
    | EmptyMatch => k pos rest cs
    | Literal c => step (Ascii.eqb c) k pos rest cs
    | AnyCharNotNL => step (fun d => negb (Ascii.eqb d newline)) k pos rest cs
    | CharClass negated ranges => step (class_mem negated ranges) k pos rest cs
    | BeginText => if Nat.eqb pos 0 then k pos rest cs else None
    | EndText =>
        match rest with
        | EmptyString => k pos rest cs
        | String _ _ => None
        end
    | Capture i r' =>
        m r' (fun pos' rest' cs' => k pos' rest' (set_cap i (pos, pos') cs'))
          pos rest cs
    | Star r' => star_loop (m r') (String.length rest) k pos rest cs
    | Plus r' => m r' (star_loop (m r') (String.length rest) k) pos rest cs
    | Quest r' =>
        match m r' k pos rest cs with
        | Some out => Some out
        | None => k pos rest cs
        end
    | Repeat n r' => repeat_n (m r') n k pos rest cs
    | Concat r1 r2 => m r1 (m r2 k) pos rest cs
    | Alternate r1 r2 =>
        match m r1 k pos rest cs with
        | Some out => Some out
        | None => m r2 k pos rest cs
        end
    end.

(** The final continuation records the whole match as group 0. *)
Definition accept (start : nat) : cont :=
  fun pos _ cs => Some (set_cap 0 (start, pos) cs).

(** The unanchored search: the leftmost start position that matches wins. *)
Fixpoint search (re : Regexp) (pos : nat) (rest : string) : option caps :=
  match m (prog re) (accept pos) pos rest (repeat None (S (numSubexp re))) with
  | Some out => Some out
  | None =>
      match rest with
      | EmptyString => None
      | String _ rest' => search re (S pos) rest'
      end
  end.

Definition submatch_text (s : string) (c : option (nat * nat)) : string :=
  match c with
  | Some (b, e) => substring b (e - b) s
  | None => EmptyString
  end.

(** [re.MatchString(s)]. *)
Definition MatchString (re : Regexp) (s : string) : bool :=
  match search re 0 s with
  | Some _ => true
  | None => false
  end.

(** [re.FindStringSubmatch(s)]: the text of the leftmost match and of its
    groups; nil (the empty list) when there is no match. *)
Definition FindStringSubmatch (re : Regexp) (s : string) : list string :=
  match search re 0 s with
  | Some cs => map (submatch_text s) cs
  | None => []
  end.

(** *** What a pattern denotes

    [Matches r pos w rest]: [r] matches the word [w] when [w] starts at
    offset [pos] of the text and [rest] follows it. *)
Inductive Matches : regex -> nat -> string -> string -> Prop :=
| MEmpty pos rest : Matches EmptyMatch pos "" rest
| MLiteral c pos rest : Matches (Literal c) pos (String c "") rest
| MAny c pos rest :
    c <> newline -> Matches AnyCharNotNL pos (String c "") rest
| MClass negated ranges c pos rest :
    class_mem negated ranges c = true ->
    Matches (CharClass negated ranges) pos (String c "") rest
| MBegin rest : Matches BeginText 0 "" rest
| MEnd pos : Matches EndText pos "" ""
| MCapture i r pos w rest :
    Matches r pos w rest -> Matches (Capture i r) pos w rest
| MStarDone r pos rest : Matches (Star r) pos "" rest
| MStarMore r pos w1 w2 rest :
    Matches r pos w1 (w2 ++ rest) -> w1 <> "" ->
    Matches (Star r) (pos + String.length w1) w2 rest ->
    Matches (Star r) pos (w1 ++ w2) rest
| MPlus r pos w1 w2 rest :
    Matches r pos w1 (w2 ++ rest) ->
    Matches (Star r) (pos + String.length w1) w2 rest ->
    Matches (Plus r) pos (w1 ++ w2) rest
| MQuestNone r pos rest : Matches (Quest r) pos "" rest
| MQuestOne r pos w rest :
    Matches r pos w rest -> Matches (Quest r) pos w rest
| MRepeatDone r pos rest : Matches (Repeat 0 r) pos "" rest
| MRepeatMore n r pos w1 w2 rest :
    Matches r pos w1 (w2 ++ rest) ->
    Matches (Repeat n r) (pos + String.length w1) w2 rest ->
    Matches (Repeat (S n) r) pos (w1 ++ w2) rest
| MConcat r1 r2 pos w1 w2 rest :
    Matches r1 pos w1 (w2 ++ rest) ->
    Matches r2 (pos + String.length w1) w2 rest ->
    Matches (Concat r1 r2) pos (w1 ++ w2) rest
| MAltLeft r1 r2 pos w rest :
    Matches r1 pos w rest -> Matches (Alternate r1 r2) pos w rest
| MAltRight r1 r2 pos w rest :
    Matches r2 pos w rest -> Matches (Alternate r1 r2) pos w rest.

(** *** The matcher against the denotation

    A continuation transformer such as [m r] is judged by these two
    properties.  *)

(** [body] only succeeds through its continuation, after a word of [r]. *)
Definition sound (r : regex) (body : cont -> cont) : Prop :=
  forall k pos s cs out,
    body k pos s cs = Some out ->
    exists w rest cs',
      s = (w ++ rest)%string /\ Matches r pos w rest /\
      k (pos + String.length w)%nat rest cs' = Some out.

(** [body] succeeds on every word of [r] after which the continuation
    succeeds. *)
Definition complete (r : regex) (body : cont -> cont) : Prop :=
  forall pos w rest,
    Matches r pos w rest ->
    forall k cs,
      (forall cs', k (pos + String.length w)%nat rest cs' <> None) ->
      body k pos (w ++ rest)%string cs <> None.

(** A chain of literals in front of [r], as the parser builds it. *)
Fixpoint lits (s : string) (r : regex) : regex :=
  match s with
  | EmptyString => r
  | String c s' => Concat (Literal c) (lits s' r)
  end.

End regexp.

(** ** Package [deployer] *)

(** [locationFlag] builds the zone/region flag from the provided zone/region
    used by gcloud commands. *)
Definition locationFlag (regions zones : list string) (retryCount : Z)
  : result string :=
  if negb (len zones =? 0) then
    zone <- index zones retryCount ;;
    Ok ("--zone=" ++ zone)
  else
    region <- index regions retryCount ;;
    Ok ("--region=" ++ region).

(** [regionFromLocation] computes the region from the specified zone/region
    used by some commands (such as subnets), which do not support zones. *)
Definition regionFromLocation (regions zones : list string) (retryCount : Z)
  : result string :=
  if negb (len zones =? 0) then
    zone <- index zones retryCount ;;
    slice zone 0 (LastIndex zone "-")
  else
    index regions retryCount.

(** *** Declarations the file imports

    [deployer.go] embeds option structs of package [options] and uses a few
    constants declared in other files of the package.  Their declarations
    are not part of this file: the structs are given the fields the file
    reads or sets (every other field keeps Go's zero value), and the
    constants are gathered in [Elsewhere], over which [New] is a function. *)

Module build.

Inductive Builder : Type := NoopBuilder.
Inductive Stager : Type := NoopStager.

Record Options : Type := mkOptions {
  Builder_ : Builder;
  Stager_ : Stager;
  Strategy : string
}.

End build.

Module types.

(** [types.Options] is an interface; the file calls its [RunDir] method. *)
Record Options : Type := mkOptions {
  RunDir : string
}.

End types.

Module options.

Record BuildOptions : Type := mkBuildOptions {
  CommonBuildOptions : build.Options
}.

Record CommonOptions : Type := mkCommonOptions {
  Network : string;
  Environment : string;
  Regions : list string;
  Zones : list string
}.

Record UpOptions : Type := mkUpOptions {
  NumClusters : Z;
  NumNodes : Z;
  MachineType : string;
  ImageType : string;
  WindowsNumNodes : Z;
  WindowsMachineType : string;
  WindowsImageType : string;
  Version : string;
  GCPSSHKeyIgnored : bool;
  BoskosLocation : string;
  BoskosResourceType : string;
  BoskosAcquireTimeoutSeconds : Z;
  BoskosHeartbeatIntervalSeconds : Z;
  BoskosProjectsRequested : Z;
  RetryableErrorPatterns : list string
}.

End options.

Module client.

(** [sigs.k8s.io/boskos/client.Client], of which the file only holds a
    pointer. *)
Inductive Client : Type := mkClient.

End client.

Record Elsewhere : Type := mkElsewhere {
  WindowsImageTypeLTSC : string;
  defaultBoskosLocation : string;
  defaultGKEProjectResourceType : string;
  defaultBoskosAcquireTimeoutSeconds : Z;
  defaultBoskosHeartbeatIntervalSeconds : Z;
  (* path/filepath.Join of the Go library *)
  filepath_Join : list string -> string
}.

(** [Name] is the name of the deployer. *)
Definition Name : string := "gke".

Definition e2eAllow : string :=
  "tcp:22,tcp:80,tcp:8080,tcp:30000-32767,udp:30000-32767".

Definition defaultImage : string := "cos".

Definition defaultWindowsImage (ext : Elsewhere) : string :=
  WindowsImageTypeLTSC ext.

Definition gceStockoutErrorPattern : string :=
  ".*does not have enough resources available to fulfill.*".

Definition privateClusterAccessLevel : Type := string.

Definition no : privateClusterAccessLevel := "no".
Definition limited : privateClusterAccessLevel := "limited".
Definition unrestricted : privateClusterAccessLevel := "unrestricted".

(** [poolRe] matches instance group URLs of the form
    [https://www.googleapis.com/compute/v1/projects/some-project/zones/a-zone/instanceGroupManagers/gke-some-cluster-some-pool-90fcb815-grp]
    (or [gk3-...] for GKE in Autopilot mode).  Match meaning:
    m[0]: path starting with zones/; m[1]: zone; m[2]: pool name (passed
    to e2es); m[3]: unique hash (used as nonce for firewall rules). *)
Definition poolRe : result regexp.Regexp :=
  regexp.MustCompile
    "zones/([^/]+)/instanceGroupManagers/(gk[e|3]-.*-([0-9a-f]{8})-grp)$".

Definition urlRe : result regexp.Regexp :=
  regexp.MustCompile "https://.*/".

(** The syntax tree [poolRe]'s pattern parses to. *)
Definition poolRe_prog : regexp.regex :=
  let hex := regexp.CharClass false [("0", "9"); ("a", "f")]%char in
  let any := regexp.AnyCharNotNL in
  regexp.lits "zones/"
    (regexp.Concat
       (regexp.Capture 1 (regexp.Plus (regexp.CharClass true [("/", "/")]%char)))
       (regexp.lits "/instanceGroupManagers/"
          (regexp.Concat
             (regexp.Capture 2
                (regexp.lits "gk"
                   (regexp.Concat
                      (regexp.CharClass false [("e", "e"); ("|", "|"); ("3", "3")]%char)
                      (regexp.lits "-"
                         (regexp.Concat (regexp.Star any)
                            (regexp.lits "-"
                               (regexp.Concat
                                  (regexp.Capture 3 (regexp.Repeat 8 hex))
                                  (regexp.lits "-gr" (regexp.Literal "p")))))))))
             regexp.EndText))).

(** The phrase at the heart of [gceStockoutErrorPattern], and the syntax
    tree the pattern parses to. *)
Definition stockoutPhrase : string :=
  "does not have enough resources available to fulfill".

Definition stockout_prog : regexp.regex :=
  regexp.Concat (regexp.Star regexp.AnyCharNotNL)
    (regexp.lits stockoutPhrase (regexp.Star regexp.AnyCharNotNL)).

Record gkeNodePool : Type := mkGkeNodePool {
  Nodes : Z;
  MachineType : string
}.

Definition defaultNodePool : gkeNodePool :=
  {| Nodes := 3; MachineType := "n1-standard-2" |}.

Definition defaultWindowsNodePool : gkeNodePool :=
  {| Nodes := 1; MachineType := "n1-standard-2" |}.

Record ig : Type := mkIg {
  path : string;
  zone : string;
  name : string;
  uniq : string
}.

Record cluster : Type := mkCluster {
  (* index is the index of the cluster in the list provided via the
     --cluster-name flag *)
  cluster_index : Z;
  cluster_name : string
}.

Record Deployer : Type := mkDeployer {
  (* generic parts *)
  kubetest2CommonOptions : types.Options;

  BuildOptions : options.BuildOptions;
  CommonOptions : options.CommonOptions;
  UpOptions : options.UpOptions;

  (* doInit helps to make sure the initialization is performed only once:
     whether the sync.Once has fired *)
  doInit : bool;
  (* only used for multi-project multi-cluster profile to save the
     project-clusters mapping *)
  projectClustersLayout : list (string * list cluster);
  (* project -> cluster -> instance groups *)
  instanceGroups : list (string * list (string * list ig));

  kubecfgPath : string;
  testPrepared : bool;

  localLogsDir : string;
  gcsLogsDir : string;

  (* gke specific details for retrying *)
  totalTryCount : Z;
  retryCount : Z;
  retryableErrorPatternsCompiled : list regexp.Regexp;
  subnetworkRangesInternal : list (list string);
  privateClusterMasterIPRangesInternal : list (list string);

  (* non-nil when the deployer is using boskos to acquire a GCP project *)
  boskos : option client.Client;
  (* signal channel for the heartbeat goroutine; nil until it is made *)
  boskosHeartbeatClose : option unit
}.

(** The fields promoted from the embedded option structs. *)
Definition Zones (d : Deployer) : list string := options.Zones (CommonOptions d).
Definition Regions (d : Deployer) : list string := options.Regions (CommonOptions d).

Definition Provider (d : Deployer) : string := Name.

(** [New] implements deployer.New for gke: it creates a deployer object and
    sets the fields that are not flag controlled.  The flag set it also
    returns is built by the flag libraries from the deployer's fields and
    is not modelled. *)
Definition New (ext : Elsewhere) (opts : types.Options) : Deployer :=
  {| kubetest2CommonOptions := opts;
     BuildOptions :=
       {| options.CommonBuildOptions :=
            {| build.Builder_ := build.NoopBuilder;
               build.Stager_ := build.NoopStager;
               build.Strategy := "make" |} |};
     CommonOptions :=
       {| options.Network := "default";
          options.Environment := "prod";
          options.Regions := [];
          options.Zones := [] |};
     UpOptions :=
       {| options.NumClusters := 1;
          options.NumNodes := Nodes defaultNodePool;
          options.MachineType := MachineType defaultNodePool;
          options.ImageType := defaultImage;
          options.WindowsNumNodes := Nodes defaultWindowsNodePool;
          options.WindowsMachineType := MachineType defaultWindowsNodePool;
          options.WindowsImageType := defaultWindowsImage ext;
          (* Leave Version as empty to use the default cluster version. *)
          options.Version := "";
          options.GCPSSHKeyIgnored := true;

          options.BoskosLocation := defaultBoskosLocation ext;
          options.BoskosResourceType := defaultGKEProjectResourceType ext;
          options.BoskosAcquireTimeoutSeconds :=
            defaultBoskosAcquireTimeoutSeconds ext;
          options.BoskosHeartbeatIntervalSeconds :=
            defaultBoskosHeartbeatIntervalSeconds ext;
          options.BoskosProjectsRequested := 1;

          options.RetryableErrorPatterns := [gceStockoutErrorPattern] |};
     doInit := false;
     projectClustersLayout := [];
     instanceGroups := [];
     kubecfgPath := "";
     testPrepared := false;
     localLogsDir := filepath_Join ext [types.RunDir opts; "logs"];
     gcsLogsDir := "";
     totalTryCount := 0;
     retryCount := 0;
     retryableErrorPatternsCompiled := [];
     subnetworkRangesInternal := [];
     privateClusterMasterIPRangesInternal := [];
     boskos := None;
     boskosHeartbeatClose := None |}.

(** Go's [error]: [None] is nil, [Some msg] an error made by [fmt.Errorf]. *)
Definition error : Type := option string.

(** A method with a pointer receiver: its result and the receiver after
    the call. *)
Definition method (A : Type) : Type := Deployer -> A * Deployer.

Definition VerifyLocationFlags : method error :=
  fun d =>
    if (len (Zones d) =? 0) && (len (Regions d) =? 0) then
      (Some "--zone or --region must be set for GKE deployment", d)
    else if negb (len (Zones d) =? 0) && negb (len (Regions d) =? 0) then
      (Some "--zone and --region cannot both be set", d)
    else
      (None, d).

(** ** The retry loop around cluster creation

    The code that compiles the retryable-error patterns, classifies an
    error and cycles through the locations lives in other files of the
    package; what follows is written from the design document. *)

(** Modelled from the spec: the compilation of the configured
    retryable-error pattern list into the compiled pattern set of the retry
    state (the code that fills [retryableErrorPatternsCompiled] is missing).
    [None] when a pattern does not compile. *)
Fixpoint compilePatterns (patterns : list string) : option (list regexp.Regexp) :=
  match patterns with
  | [] => Some []
  | p :: ps =>
      match regexp.Compile p, compilePatterns ps with
      | Some re, Some res => Some (re :: res)
      | _, _ => None
      end
  end.

(** Modelled from the spec: [ErrorClassifier.isRetryable], missing from the
    sources: true iff errorText matches any compiled pattern in the
    configured retryable-pattern set; matching is a search, not
    full-string equality. *)
Definition isRetryable (patterns : list regexp.Regexp) (errorText : string) : bool :=
  existsb (fun re => regexp.MatchString re errorText) patterns.

Definition with_retryCount (n : Z) (d : Deployer) : Deployer :=
  {| kubetest2CommonOptions := kubetest2CommonOptions d;
     BuildOptions := BuildOptions d;
     CommonOptions := CommonOptions d;
     UpOptions := UpOptions d;
     doInit := doInit d;
     projectClustersLayout := projectClustersLayout d;
     instanceGroups := instanceGroups d;
     kubecfgPath := kubecfgPath d;
     testPrepared := testPrepared d;
     localLogsDir := localLogsDir d;
     gcsLogsDir := gcsLogsDir d;
     totalTryCount := totalTryCount d;
     retryCount := n;
     retryableErrorPatternsCompiled := retryableErrorPatternsCompiled d;
     subnetworkRangesInternal := subnetworkRangesInternal d;
     privateClusterMasterIPRangesInternal := privateClusterMasterIPRangesInternal d;
     boskos := boskos d;
     boskosHeartbeatClose := boskosHeartbeatClose d |}.

Module Orchestrator.

(** What the external cluster-creation collaborator answers to one
    attempt. *)
Inductive outcome : Type :=
| Success (output : string)
| Failure (errorText : string).

(** Modelled from the spec: the states of the per-cluster state machine of
    the ProvisioningOrchestrator, [Pending -> Attempting(location) ->
    {Succeeded | Attempting(nextLocation) | Exhausted}], and the
    [LocationConfigError] of the validation that precedes any attempt. *)
Inductive phase : Type :=
| Pending
| Attempting (location : string)
| Succeeded
| Exhausted (errorText : string)
| LocationConfigError (msg : string).

(** The deployer with its retry state, the phase, and the location
    arguments the collaborator has been invoked with so far, oldest
    first. *)
Record t : Type := mk {
  dep : Deployer;
  st : phase;
  attempts : list string
}.

(** The number of candidate locations: the length of whichever of zones
    and regions is populated. *)
Definition candidates (d : Deployer) : Z :=
  if negb (len (Zones d) =? 0) then len (Zones d) else len (Regions d).

(** Modelled from the spec: entering the state machine, which is missing
    from the sources.  On entry attemptIndex = 0; the location flags are
    validated once before any attempt, a failure being surfaced at once;
    then the first location is attempted. *)
Definition begin (d : Deployer) : result t :=
  match VerifyLocationFlags (with_retryCount 0 d) with
  | (Some msg, d1) => Ok (mk d1 (LocationConfigError msg) [])
  | (None, d1) =>
      loc <- locationFlag (Regions d1) (Zones d1) (retryCount d1) ;;
      Ok (mk d1 (Attempting loc) [loc])
  end.

(** Modelled from the spec: one transition of the state machine, missing
    from the sources, on the collaborator's answer to the attempt under
    way.  On success -> Succeeded.  On failure: if retryable and
    attemptIndex+1 < totalTryCount and an alternate location exists,
    increment attemptIndex and re-enter Attempting; otherwise -> Exhausted,
    propagating the failure unchanged.  Succeeded, Exhausted and the
    configuration error are terminal. *)
Definition step (s : t) (o : outcome) : result t :=
  match st s with
  | Attempting _ =>
      match o with
      | Success _ => Ok (mk (dep s) Succeeded (attempts s))
      | Failure errorText =>
          let d := dep s in
          if isRetryable (retryableErrorPatternsCompiled d) errorText
             && (retryCount d + 1 <? totalTryCount d)
             && (retryCount d + 1 <? candidates d)
          then
            let d' := with_retryCount (retryCount d + 1) d in
            loc <- locationFlag (Regions d') (Zones d') (retryCount d') ;;
            Ok (mk d' (Attempting loc) (attempts s ++ [loc]))
          else Ok (mk d (Exhausted errorText) (attempts s))
      end
  | _ => Ok s
  end.

(** The state machine driven by the collaborator's successive answers. *)
Fixpoint run (s : t) (answers : list outcome) : result t :=
  match answers with
  | [] => Ok s
  | o :: answers' => s' <- step s o ;; run s' answers'
  end.

Definition exec (d : Deployer) (answers : list outcome) : result t :=
  s <- begin d ;; run s answers.

(** A deployer after configuration, for running scenarios: [d] with the
    given candidate zones, retry budget and compiled patterns. *)
Definition configured (d : Deployer) (zones : list string) (budget : Z)
    (patterns : list regexp.Regexp) : Deployer :=
  {| kubetest2CommonOptions := kubetest2CommonOptions d;
     BuildOptions := BuildOptions d;
     CommonOptions :=
       {| options.Network := options.Network (CommonOptions d);
          options.Environment := options.Environment (CommonOptions d);
          options.Regions := options.Regions (CommonOptions d);
          options.Zones := zones |};
     UpOptions := UpOptions d;
     doInit := doInit d;
     projectClustersLayout := projectClustersLayout d;
     instanceGroups := instanceGroups d;
     kubecfgPath := kubecfgPath d;
     testPrepared := testPrepared d;
     localLogsDir := localLogsDir d;
     gcsLogsDir := gcsLogsDir d;
     totalTryCount := budget;
     retryCount := retryCount d;
     retryableErrorPatternsCompiled := patterns;
     subnetworkRangesInternal := subnetworkRangesInternal d;
     privateClusterMasterIPRangesInternal := privateClusterMasterIPRangesInternal d;
     boskos := boskos d;
     boskosHeartbeatClose := boskosHeartbeatClose d |}.


End Orchestrator.

(** ** Submatches, denotationally

    [Matches] says which words a pattern has; [MatchesC] also says what a
    match does to the submatch positions: a capture group records where
    the word it matched starts and ends, everything else passes them on. *)

Module captures.

Import regexp.

(** Every byte of [s] satisfies [p]. *)
Fixpoint all_chars (p : ascii -> bool) (s : string) : bool :=
  match s with
  | EmptyString => true
  | String c s' => p c && all_chars p s'
  end.

Inductive MatchesC : regex -> nat -> string -> string -> caps -> caps -> Prop :=
| CEmpty pos rest cs : MatchesC EmptyMatch pos "" rest cs cs
| CLiteral c pos rest cs : MatchesC (Literal c) pos (String c "") rest cs cs
| CAny c pos rest cs :
    c <> newline -> MatchesC AnyCharNotNL pos (String c "") rest cs cs
| CClass negated ranges c pos rest cs :
    class_mem negated ranges c = true ->
    MatchesC (CharClass negated ranges) pos (String c "") rest cs cs
| CBegin rest cs : MatchesC BeginText 0 "" rest cs cs
| CEnd pos cs : MatchesC EndText pos "" "" cs cs
| CCapture i r pos w rest cs cs' :
    MatchesC r pos w rest cs cs' ->
    MatchesC (Capture i r) pos w rest cs
      (set_cap i (pos, (pos + String.length w)%nat) cs')
| CStarDone r pos rest cs : MatchesC (Star r) pos "" rest cs cs
| CStarMore r pos w1 w2 rest cs cs1 cs2 :
    MatchesC r pos w1 (w2 ++ rest) cs cs1 -> w1 <> "" ->
    MatchesC (Star r) (pos + String.length w1) w2 rest cs1 cs2 ->
    MatchesC (Star r) pos (w1 ++ w2) rest cs cs2
| CPlus r pos w1 w2 rest cs cs1 cs2 :
    MatchesC r pos w1 (w2 ++ rest) cs cs1 ->
    MatchesC (Star r) (pos + String.length w1) w2 rest cs1 cs2 ->
    MatchesC (Plus r) pos (w1 ++ w2) rest cs cs2
| CQuestNone r pos rest cs : MatchesC (Quest r) pos "" rest cs cs
| CQuestOne r pos w rest cs cs' :
    MatchesC r pos w rest cs cs' -> MatchesC (Quest r) pos w rest cs cs'
| CRepeatDone r pos rest cs : MatchesC (Repeat 0 r) pos "" rest cs cs
| CRepeatMore n r pos w1 w2 rest cs cs1 cs2 :
    MatchesC r pos w1 (w2 ++ rest) cs cs1 ->
    MatchesC (Repeat n r) (pos + String.length w1) w2 rest cs1 cs2 ->
    MatchesC (Repeat (S n) r) pos (w1 ++ w2) rest cs cs2
| CConcat r1 r2 pos w1 w2 rest cs cs1 cs2 :
    MatchesC r1 pos w1 (w2 ++ rest) cs cs1 ->
    MatchesC r2 (pos + String.length w1) w2 rest cs1 cs2 ->
    MatchesC (Concat r1 r2) pos (w1 ++ w2) rest cs cs2
| CAltLeft r1 r2 pos w rest cs cs' :
    MatchesC r1 pos w rest cs cs' -> MatchesC (Alternate r1 r2) pos w rest cs cs'
| CAltRight r1 r2 pos w rest cs cs' :
    MatchesC r2 pos w rest cs cs' -> MatchesC (Alternate r1 r2) pos w rest cs cs'.

(** [body] only succeeds through its continuation, after a word of [r],
    handing over the submatches that word leaves. *)
Definition soundC (r : regex) (body : cont -> cont) : Prop :=
  forall k pos s cs out,
    body k pos s cs = Some out ->
    exists w rest cs',
      s = (w ++ rest)%string /\ MatchesC r pos w rest cs cs' /\
      k (pos + String.length w)%nat rest cs' = Some out.

(** [r] matches single bytes, those satisfying [p], and records nothing. *)
Definition char_pattern (p : ascii -> bool) (r : regex) : Prop :=
  forall pos w rest cs cs',
    MatchesC r pos w rest cs cs' ->
    cs' = cs /\ exists c, w = String c "" /\ p c = true.

End captures.

(** * Properties *)

(** ** Strings and slices *)

Module GoFacts.

Lemma strlen_nonneg (s : string) : 0 <= strlen s.
Proof. unfold strlen. lia. Qed.

Lemma strlen_String (c : ascii) (s : string) : strlen (String c s) = strlen s + 1.
Proof. unfold strlen. cbn [String.length]. lia. Qed.

Lemma strlen_app (s t : string) : strlen (s ++ t) = strlen s + strlen t.
Proof.
  induction s as [|c s IH]; cbn [append].
  - unfold strlen. cbn. lia.
  - rewrite !strlen_String, IH. lia.
Qed.

Lemma len_nonempty {A : Type} (l : list A) (i : Z) :
  0 <= i < len l -> (len l =? 0) = false.
Proof. intros H. apply Z.eqb_neq. lia. Qed.

Lemma index_in_bounds (l : list string) (i : Z) :
  0 <= i < len l -> index l i = Ok (nth (Z.to_nat i) l "").
Proof.
  intros H. unfold index.
  replace ((0 <=? i) && (i <? len l)) with true
    by (symmetry; apply andb_true_iff; split; [apply Z.leb_le | apply Z.ltb_lt]; lia).
  destruct (nth_error l (Z.to_nat i)) as [a|] eqn:E.
  - now rewrite (nth_error_nth l (Z.to_nat i) "" E).
  - apply nth_error_None in E. unfold len in H. lia.
Qed.

Lemma index_out_of_bounds {A : Type} (l : list A) (i : Z) :
  ~ (0 <= i < len l) -> index l i = Panic (IndexOutOfRange i (len l)).
Proof.
  intros H. unfold index.
  destruct ((0 <=? i) && (i <? len l)) eqn:E; [|reflexivity].
  apply andb_true_iff in E as [E1 E2].
  apply Z.leb_le in E1. apply Z.ltb_lt in E2. lia.
Qed.

Lemma HasPrefix_app (p t : string) : HasPrefix (p ++ t) p = true.
Proof.
  induction p as [|c p IH]; [reflexivity|].
  cbn. now rewrite Ascii.eqb_refl, IH.
Qed.

Lemma HasPrefix_inv (s p : string) :
  HasPrefix s p = true -> exists t, s = p ++ t.
Proof.
  revert s. induction p as [|c p IH]; intros s H.
  - now exists s.
  - destruct s as [|d s]; [discriminate|]. cbn in H.
    apply andb_true_iff in H as [Hc Hp]. apply Ascii.eqb_eq in Hc. subst d.
    destruct (IH s Hp) as [t ->]. now exists t.
Qed.

(** [Contains] is the substring relation. *)
Lemma Contains_true_iff (s sub : string) :
  Contains s sub = true <-> exists pre post, s = pre ++ sub ++ post.
Proof.
  unfold Contains. split.
  - induction s as [|c s IH]; cbn [Index]; intros H.
    + destruct (HasPrefix "" sub) eqn:E; [|discriminate].
      destruct (HasPrefix_inv _ _ E) as [t Ht]. now exists "", t.
    + destruct (HasPrefix (String c s) sub) eqn:E.
      * destruct (HasPrefix_inv _ _ E) as [t Ht]. now exists "", t.
      * cbv zeta in H. destruct (Index s sub <? 0) eqn:E'; [discriminate|].
        apply Z.ltb_ge in E'. destruct IH as (pre & post & ->).
        { now apply Z.leb_le. }
        now exists (String c pre), post.
  - intros (pre & post & ->). induction pre as [|c pre IH].
    + cbn [append]. destruct (sub ++ post) as [|d u] eqn:E; cbn [Index].
      * destruct sub; [reflexivity | discriminate].
      * rewrite <- E, HasPrefix_app. reflexivity.
    + cbn [append Index].
      destruct (HasPrefix (String c (pre ++ sub ++ post)) sub); [reflexivity|].
      cbv zeta. apply Z.leb_le in IH.
      destruct (Index (pre ++ sub ++ post) sub <? 0) eqn:E'.
      * apply Z.ltb_lt in E'. lia.
      * apply Z.leb_le. lia.
Qed.

Lemma Contains_false_tail (c : ascii) (s sub : string) :
  Contains (String c s) sub = false ->
  HasPrefix (String c s) sub = false /\ Contains s sub = false.
Proof.
  unfold Contains. cbn [Index].
  destruct (HasPrefix (String c s) sub); [discriminate|].
  cbv zeta. intros H. split; [reflexivity|].
  destruct (Index s sub <? 0) eqn:E.
  - apply Z.ltb_lt in E. apply Z.leb_gt. lia.
  - apply Z.ltb_ge in E. apply Z.leb_gt in H. lia.
Qed.

(** Without an instance of [sub], [LastIndex] is -1, as [Index] is. *)
Lemma LastIndex_absent (s sub : string) :
  Contains s sub = false -> LastIndex s sub = -1.
Proof.
  induction s as [|c s IH]; intros H.
  - unfold Contains in H. cbn [Index LastIndex] in *.
    destruct (HasPrefix "" sub); [discriminate | reflexivity].
  - apply Contains_false_tail in H as [Hp Hs].
    cbn [LastIndex]. rewrite (IH Hs), Hp. reflexivity.
Qed.

Lemma LastIndex_present (s sub : string) :
  Contains s sub = true -> 0 <= LastIndex s sub.
Proof.
  unfold Contains. induction s as [|c s IH]; cbn [Index LastIndex]; intros H.
  - destruct (HasPrefix "" sub); [lia | discriminate].
  - cbv zeta. destruct (0 <=? LastIndex s sub) eqn:E.
    + apply Z.leb_le in E. lia.
    + destruct (HasPrefix (String c s) sub); [lia|].
      cbv zeta in H. destruct (Index s sub <? 0) eqn:E'; [discriminate|].
      apply Z.ltb_ge in E'. apply Z.leb_gt in E.
      assert (0 <= LastIndex s sub) by (apply IH; now apply Z.leb_le). lia.
Qed.

Lemma LastIndex_upper (s sub : string) : LastIndex s sub <= strlen s.
Proof.
  induction s as [|c s IH]; cbn [LastIndex].
  - destruct (HasPrefix "" sub); unfold strlen; cbn; lia.
  - rewrite strlen_String. pose proof (strlen_nonneg s). cbv zeta.
    destruct (0 <=? LastIndex s sub); [lia|].
    destruct (HasPrefix (String c s) sub); lia.
Qed.

(** The last instance of [sub] in [pre ++ sub ++ post] starts where [pre]
    ends when no instance starts later. *)
Lemma LastIndex_last (pre sub post : string) (c : ascii) (sub' : string) :
  sub = String c sub' ->
  Contains (sub' ++ post) sub = false ->
  LastIndex (pre ++ sub ++ post) sub = strlen pre.
Proof.
  intros -> H. induction pre as [|d pre IH].
  - cbn [append LastIndex]. rewrite (LastIndex_absent _ _ H). cbv zeta.
    change (0 <=? -1) with false. cbv iota.
    change (String c (sub' ++ post)) with (String c sub' ++ post).
    now rewrite HasPrefix_app.
  - change (String d pre ++ String c sub' ++ post)
      with (String d (pre ++ String c sub' ++ post)).
    cbn [LastIndex]. rewrite IH. cbv zeta.
    pose proof (strlen_nonneg pre) as Hn.
    replace (0 <=? strlen pre) with true by (symmetry; now apply Z.leb_le).
    now rewrite strlen_String.
Qed.

(** A string that holds a hyphen splits at its last one. *)
Lemma split_at_last_hyphen (s : string) :
  Contains s "-" = true ->
  exists region suffix, s = region ++ "-" ++ suffix /\ Contains suffix "-" = false.
Proof.
  induction s as [|c s IH]; intros H; [discriminate|].
  destruct (Contains s "-") eqn:Hs.
  - destruct (IH eq_refl) as (region & suffix & -> & Hsuf).
    now exists (String c region), suffix.
  - exists "", s. split; [|exact Hs].
    unfold Contains in H, Hs. cbn [Index] in H.
    destruct (HasPrefix (String c s) "-") eqn:Hp.
    + cbn [HasPrefix] in Hp. rewrite andb_true_r in Hp.
      apply Ascii.eqb_eq in Hp as <-. reflexivity.
    + cbv zeta in H. apply Z.leb_gt in Hs.
      replace (Index s "-" <? 0) with true in H by (symmetry; now apply Z.ltb_lt).
      discriminate.
Qed.

Lemma substring_prefix (s t : string) :
  substring 0 (String.length s) (s ++ t) = s.
Proof.
  induction s as [|c s IH]; cbn.
  - now destruct t.
  - now rewrite IH.
Qed.

Lemma slice_prefix (s t : string) : slice (s ++ t) 0 (strlen s) = Ok s.
Proof.
  unfold slice. pose proof (strlen_nonneg s). pose proof (strlen_nonneg t).
  rewrite strlen_app.
  replace ((0 <=? 0) && (0 <=? strlen s) && (strlen s <=? strlen s + strlen t))
    with true
    by (symmetry; rewrite !andb_true_iff; repeat split; apply Z.leb_le; lia).
  rewrite Z.sub_0_r. unfold strlen. rewrite Nat2Z.id. cbn [Z.to_nat].
  now rewrite substring_prefix.
Qed.

Lemma slice_in_bounds (s : string) (hi : Z) :
  0 <= hi <= strlen s -> exists r, slice s 0 hi = Ok r.
Proof.
  intros H. unfold slice.
  replace ((0 <=? 0) && (0 <=? hi) && (hi <=? strlen s)) with true
    by (symmetry; rewrite !andb_true_iff; repeat split; apply Z.leb_le; lia).
  eauto.
Qed.

Lemma slice_negative (s : string) (hi : Z) :
  hi < 0 -> slice s 0 hi = Panic (SliceBoundsOutOfRange hi (strlen s)).
Proof.
  intros H. unfold slice.
  replace (0 <=? hi) with false by (symmetry; apply Z.leb_gt; lia).
  now rewrite andb_false_r.
Qed.

End GoFacts.

Import GoFacts.

(** ** Location selection *)

(** C1.  For a list [L] and an attempt index [i] within its bounds:
    with no regions, the location argument is "--zone=" followed by
    [L[i]] when [L] is the zone list; with no zones it is "--region="
    followed by [L[i]] when [L] is the region list; and a non-empty zone
    list is the one selected from, whatever the regions are. *)
Theorem locationFlag_selects (L other : list string) (i : Z) :
  0 <= i < len L ->
  locationFlag [] L i = Ok ("--zone=" ++ nth (Z.to_nat i) L "") /\
  locationFlag L [] i = Ok ("--region=" ++ nth (Z.to_nat i) L "") /\
  locationFlag other L i = Ok ("--zone=" ++ nth (Z.to_nat i) L "").
Proof.
  intros Hi. unfold locationFlag.
  rewrite (len_nonempty L i Hi), (index_in_bounds L i Hi).
  repeat split; reflexivity.
Qed.

Lemma locationFlag_selects_witness :
  locationFlag [] ["us-central1-a"; "us-east1-b"] 1 = Ok "--zone=us-east1-b" /\
  locationFlag ["us-central1"; "us-east1"] [] 1 = Ok "--region=us-east1".
Proof.
  split.
  - apply (locationFlag_selects ["us-central1-a"; "us-east1-b"] [] 1).
    unfold len; cbn; lia.
  - apply (locationFlag_selects ["us-central1"; "us-east1"] [] 1).
    unfold len; cbn; lia.
Defined.

(** C2.  When the zone selected at the attempt index holds a hyphen, it
    splits as [region ++ "-" ++ suffix] with no hyphen in [suffix], and
    [regionFromLocation] returns exactly that [region], the prefix before
    the last hyphen, as it does for every such way of writing the zone;
    and with an empty zone list it returns the region at the attempt index
    unchanged. *)
Theorem regionFromLocation_truncates
    (regions zones : list string) (i : Z) (R : list string) (j : Z) :
  0 <= i < len zones ->
  Contains (nth (Z.to_nat i) zones "") "-" = true ->
  0 <= j < len R ->
  (exists region suffix,
     nth (Z.to_nat i) zones "" = region ++ "-" ++ suffix /\
     Contains suffix "-" = false /\
     regionFromLocation regions zones i = Ok region) /\
  (forall region suffix,
     nth (Z.to_nat i) zones "" = region ++ "-" ++ suffix ->
     Contains suffix "-" = false ->
     regionFromLocation regions zones i = Ok region) /\
  regionFromLocation R [] j = Ok (nth (Z.to_nat j) R "").
Proof.
  intros Hi Hc Hj.
  assert (P : forall region suffix,
             nth (Z.to_nat i) zones "" = region ++ "-" ++ suffix ->
             Contains suffix "-" = false ->
             regionFromLocation regions zones i = Ok region).
  { intros region suffix Hz Hs. unfold regionFromLocation.
    rewrite (len_nonempty zones i Hi), (index_in_bounds zones i Hi). cbn [bind negb].
    rewrite Hz, (LastIndex_last region "-" suffix "-"%char "" eq_refl Hs).
    apply slice_prefix. }
  split; [|split; [exact P|]].
  - destruct (split_at_last_hyphen _ Hc) as (region & suffix & Hz & Hs).
    exists region, suffix. split; [exact Hz|]. split; [exact Hs|].
    exact (P region suffix Hz Hs).
  - unfold regionFromLocation. cbn [len List.length Z.of_nat Z.eqb negb].
    now apply index_in_bounds.
Qed.

Lemma regionFromLocation_truncates_witness :
  regionFromLocation [] ["us-central1-a"] 0 = Ok "us-central1" /\
  regionFromLocation ["europe-west4"] [] 0 = Ok "europe-west4".
Proof.
  destruct (regionFromLocation_truncates [] ["us-central1-a"] 0 ["europe-west4"] 0)
    as (_ & Hzone & Hregion).
  - unfold len; cbn; lia.
  - reflexivity.
  - unfold len; cbn; lia.
  - split; [|exact Hregion].
    apply (Hzone "us-central1" "a"); reflexivity.
Defined.

(** C9.  With a non-empty zone list and an index within bounds, a selected
    zone without a hyphen makes [strings.LastIndex] return -1 and the slice
    [zone[0:-1]] panic; the function returns a value exactly when the
    selected zone contains a hyphen. *)
Theorem regionFromLocation_partial (regions zones : list string) (i : Z) :
  0 <= i < len zones ->
  (Contains (nth (Z.to_nat i) zones "") "-" = false ->
   LastIndex (nth (Z.to_nat i) zones "") "-" = -1 /\
   regionFromLocation regions zones i =
     Panic (SliceBoundsOutOfRange (-1) (strlen (nth (Z.to_nat i) zones "")))) /\
  ((exists r, regionFromLocation regions zones i = Ok r) <->
   Contains (nth (Z.to_nat i) zones "") "-" = true).
Proof.
  intros Hi.
  assert (E : regionFromLocation regions zones i =
              slice (nth (Z.to_nat i) zones "") 0
                (LastIndex (nth (Z.to_nat i) zones "") "-")).
  { unfold regionFromLocation.
    now rewrite (len_nonempty zones i Hi), (index_in_bounds zones i Hi). }
  set (zone := nth (Z.to_nat i) zones "") in *.
  assert (P : Contains zone "-" = false ->
              LastIndex zone "-" = -1 /\
              regionFromLocation regions zones i =
                Panic (SliceBoundsOutOfRange (-1) (strlen zone))).
  { intros Hno. pose proof (LastIndex_absent zone "-" Hno) as Hl.
    split; [exact Hl|]. rewrite E, Hl. now apply slice_negative. }
  split; [exact P|]. split.
  - intros [r Hr]. destruct (Contains zone "-") eqn:Hc; [reflexivity|].
    destruct (P eq_refl) as [_ Hp]. congruence.
  - intros Hc. rewrite E. apply slice_in_bounds. split.
    + now apply LastIndex_present.
    + apply LastIndex_upper.
Qed.

Lemma regionFromLocation_partial_witness :
  LastIndex "uscentral1" "-" = -1 /\
  regionFromLocation [] ["uscentral1"] 0 =
    Panic (SliceBoundsOutOfRange (-1) 10).
Proof.
  apply (regionFromLocation_partial [] ["uscentral1"] 0).
  - unfold len; cbn; lia.
  - reflexivity.
Defined.

(** ** The matcher against what a pattern denotes *)

Module RegexpFacts.

Import regexp.

Local Open Scope nat_scope.

Lemma append_nil_r (s : string) : (s ++ "")%string = s.
Proof. induction s as [|c s IH]; cbn; [reflexivity | now rewrite IH]. Qed.

Lemma append_assoc (s t u : string) : ((s ++ t) ++ u = s ++ t ++ u)%string.
Proof. induction s as [|c s IH]; cbn; [reflexivity | now rewrite IH]. Qed.

Lemma length_append (s t : string) :
  String.length (s ++ t) = String.length s + String.length t.
Proof. induction s as [|c s IH]; cbn; [reflexivity | now rewrite IH]. Qed.

Lemma step_inv (p : ascii -> bool) (k : cont) pos s cs out :
  step p k pos s cs = Some out ->
  exists c rest, s = String c rest /\ p c = true /\ k (S pos) rest cs = Some out.
Proof.
  unfold step. destruct s as [|c rest]; [discriminate|].
  destruct (p c) eqn:E; [|discriminate]. intros H. now exists c, rest.
Qed.

(** The success came from the continuation at once: the word is empty. *)
Ltac empty_word s cs H :=
  exists ""%string, s, cs; cbn [append String.length];
  rewrite ?Nat.add_0_r; repeat split; [constructor | exact H].

Lemma step_sound (r : regex) (p : ascii -> bool) :
  (forall c pos rest, p c = true -> Matches r pos (String c "") rest) ->
  sound r (step p).
Proof.
  intros Hr k pos s cs out H.
  apply step_inv in H as (c & rest & -> & Hp & Hk).
  exists (String c ""), rest, cs. cbn [append String.length].
  rewrite Nat.add_1_r. auto.
Qed.

Lemma star_loop_sound (r : regex) (body : cont -> cont) :
  sound r body -> forall fuel, sound (Star r) (star_loop body fuel).
Proof.
  intros Hb fuel. induction fuel as [|fuel IH]; intros k pos s cs out H.
  - cbn in H. empty_word s cs H.
  - cbn [star_loop] in H.
    match type of H with
    | match ?b with _ => _ end = _ => destruct b as [o|] eqn:E
    end.
    + injection H as ->.
      apply Hb in E as (w1 & rest1 & cs1 & -> & Hm & Hk).
      destruct (Nat.ltb pos (pos + String.length w1)) eqn:Hlt; [|discriminate].
      apply Nat.ltb_lt in Hlt.
      apply IH in Hk as (w2 & rest & cs2 & -> & Hm2 & Hk).
      exists (w1 ++ w2)%string, rest, cs2.
      rewrite append_assoc, length_append, Nat.add_assoc.
      repeat split; [|exact Hk].
      apply MStarMore; [exact Hm | | exact Hm2].
      intros ->. cbn in Hlt. lia.
    + empty_word s cs H.
Qed.

Lemma repeat_n_sound (r : regex) (body : cont -> cont) :
  sound r body -> forall n, sound (Repeat n r) (repeat_n body n).
Proof.
  intros Hb n. induction n as [|n IH]; intros k pos s cs out H.
  - cbn in H. empty_word s cs H.
  - cbn [repeat_n] in H.
    apply Hb in H as (w1 & rest1 & cs1 & -> & Hm & Hk).
    apply IH in Hk as (w2 & rest & cs2 & -> & Hm2 & Hk).
    exists (w1 ++ w2)%string, rest, cs2.
    rewrite append_assoc, length_append, Nat.add_assoc.
    repeat split; [|exact Hk]. now apply MRepeatMore.
Qed.

(** Whatever the matcher finds is a word of the pattern. *)
Theorem m_sound (r : regex) : sound r (m r).
Proof.
  induction r as [ | c | | negated ranges | | | i r IH | r IH | r IH | r IH
                 | n r IH | r1 IH1 r2 IH2 | r1 IH1 r2 IH2 ].
  - intros k pos s cs out H. cbn in H. empty_word s cs H.
  - apply (step_sound (Literal c)). intros d pos rest Hd.
    apply Ascii.eqb_eq in Hd as <-. constructor.
  - apply (step_sound AnyCharNotNL). intros d pos rest Hd.
    constructor. intros ->. now rewrite Ascii.eqb_refl in Hd.
  - apply (step_sound (CharClass negated ranges)). intros d pos rest Hd.
    now constructor.
  - intros k pos s cs out H. cbn in H.
    destruct (Nat.eqb pos 0) eqn:E; [|discriminate]. apply Nat.eqb_eq in E as ->.
    empty_word s cs H.
  - intros k pos s cs out H. cbn in H. destruct s; [|discriminate].
    empty_word ""%string cs H.
  - intros k pos s cs out H. cbn [m] in H.
    apply IH in H as (w & rest & cs' & -> & Hm & Hk).
    exists w, rest, (set_cap i (pos, pos + String.length w) cs').
    repeat split; [now constructor | exact Hk].
  - intros k pos s cs out H. cbn [m] in H.
    now apply (star_loop_sound r (m r) IH) in H.
  - intros k pos s cs out H. cbn [m] in H.
    apply IH in H as (w1 & rest1 & cs1 & E & Hm & Hk).
    apply (star_loop_sound r (m r) IH) in Hk as (w2 & rest & cs2 & -> & Hm2 & Hk).
    exists (w1 ++ w2)%string, rest, cs2.
    rewrite append_assoc, length_append, Nat.add_assoc.
    repeat split; [exact E | now apply MPlus | exact Hk].
  - intros k pos s cs out H. cbn [m] in H.
    destruct (m r k pos s cs) as [o|] eqn:E.
    + injection H as ->.
      apply IH in E as (w & rest & cs' & -> & Hm & Hk).
      exists w, rest, cs'. repeat split; [now apply MQuestOne | exact Hk].
    + empty_word s cs H.
  - intros k pos s cs out H. cbn [m] in H.
    now apply (repeat_n_sound r (m r) IH) in H.
  - intros k pos s cs out H. cbn [m] in H.
    apply IH1 in H as (w1 & rest1 & cs1 & -> & Hm1 & Hk).
    apply IH2 in Hk as (w2 & rest & cs2 & -> & Hm2 & Hk).
    exists (w1 ++ w2)%string, rest, cs2.
    rewrite append_assoc, length_append, Nat.add_assoc.
    repeat split; [now apply MConcat | exact Hk].
  - intros k pos s cs out H. cbn [m] in H.
    destruct (m r1 k pos s cs) as [o|] eqn:E.
    + injection H as ->.
      apply IH1 in E as (w & rest & cs' & -> & Hm & Hk).
      exists w, rest, cs'. repeat split; [now apply MAltLeft | exact Hk].
    + apply IH2 in H as (w & rest & cs' & -> & Hm & Hk).
      exists w, rest, cs'. repeat split; [now apply MAltRight | exact Hk].
Qed.

Lemma search_unfold (re : Regexp) (pos : nat) (s : string) :
  search re pos s =
  match m (prog re) (accept pos) pos s (repeat None (S (numSubexp re))) with
  | Some out => Some out
  | None =>
      match s with
      | EmptyString => None
      | String _ s' => search re (S pos) s'
      end
  end.
Proof. destruct s; reflexivity. Qed.

(** A successful search has found a word of the pattern inside the text. *)
Theorem search_sound (re : Regexp) (s : string) (pos : nat) (out : caps) :
  search re pos s = Some out ->
  exists pre w rest,
    s = (pre ++ w ++ rest)%string /\
    Matches (prog re) (pos + String.length pre) w rest.
Proof.
  revert pos. induction s as [|c s IH]; intros pos H; rewrite search_unfold in H.
  - destruct (m _ _ pos ""%string _) as [o|] eqn:E; [|discriminate].
    apply m_sound in E as (w & rest & cs' & Hs & Hm & _).
    exists ""%string, w, rest. cbn. now rewrite Nat.add_0_r.
  - destruct (m _ _ pos (String c s) _) as [o|] eqn:E.
    + apply m_sound in E as (w & rest & cs' & Hs & Hm & _).
      exists ""%string, w, rest. cbn. now rewrite Nat.add_0_r.
    + apply IH in H as (pre & w & rest & -> & Hm).
      exists (String c pre), w, rest. cbn.
      now rewrite Nat.add_succ_r.
Qed.

Lemma star_loop_complete (r : regex) (body : cont -> cont) :
  complete r body ->
  forall pos w rest,
    Matches (Star r) pos w rest ->
    forall fuel k cs,
      String.length w <= fuel ->
      (forall cs', k (pos + String.length w) rest cs' <> None) ->
      star_loop body fuel k pos (w ++ rest)%string cs <> None.
Proof.
  intros Hb pos w rest HM. remember (Star r) as sr eqn:Esr.
  induction HM as [ | | | | | | | r0 pos rest
                  | r0 pos w1 w2 rest Hm1 _ Hne Hm2 IH2
                  | | | | | | | | ]; try discriminate.
  - intros fuel k cs _ Hk. cbn in Hk. rewrite Nat.add_0_r in Hk.
    destruct fuel as [|fuel]; cbn [star_loop append].
    + apply Hk.
    + destruct (body _ pos rest cs); [discriminate | apply Hk].
  - injection Esr as ->. specialize (IH2 eq_refl).
    intros fuel k cs Hfuel Hk.
    rewrite length_append in Hfuel, Hk.
    assert (Hpos : 0 < String.length w1).
    { destruct w1; [contradiction | cbn; lia]. }
    destruct fuel as [|fuel]; [lia|]. cbn [star_loop].
    match goal with
    | |- match ?b with _ => _ end <> None => destruct b as [o|] eqn:E
    end; [discriminate|].
    exfalso. rewrite append_assoc in E. revert E.
    apply (Hb pos w1 (w2 ++ rest)%string Hm1).
    intros cs'.
    replace (Nat.ltb pos (pos + String.length w1)) with true
      by (symmetry; apply Nat.ltb_lt; lia).
    apply IH2; [lia|].
    intros cs''. rewrite <- Nat.add_assoc. apply Hk.
Qed.

Lemma repeat_n_complete (r : regex) (body : cont -> cont) :
  complete r body -> forall n, complete (Repeat n r) (repeat_n body n).
Proof.
  intros Hb n. induction n as [|n IH]; intros pos w rest HM k cs Hk.
  - inversion HM; subst. cbn in *. rewrite Nat.add_0_r in Hk. apply Hk.
  - inversion HM as [ | | | | | | | | | | | | | n' r' pos' w1 w2 rest' Hm1 Hm2 | | | ];
      subst.
    cbn [repeat_n]. rewrite append_assoc.
    apply (Hb pos w1 (w2 ++ rest)%string Hm1).
    intros cs'. apply (IH _ _ _ Hm2).
    intros cs''. rewrite <- Nat.add_assoc, <- length_append. apply Hk.
Qed.

(** The matcher finds a match wherever the pattern has a word after which
    the continuation succeeds. *)
Theorem m_complete (r : regex) : complete r (m r).
Proof.
  induction r as [ | c | | negated ranges | | | i r IH | r IH | r IH | r IH
                 | n r IH | r1 IH1 r2 IH2 | r1 IH1 r2 IH2 ];
    intros pos w rest HM k cs Hk.
  - inversion HM; subst. cbn in *. rewrite Nat.add_0_r in Hk. apply Hk.
  - inversion HM; subst. cbn in *. rewrite Ascii.eqb_refl.
    rewrite Nat.add_1_r in Hk. apply Hk.
  - inversion HM as [ | | d pos' rest' Hd | | | | | | | | | | | | | | ]; subst.
    cbn in *. apply Ascii.eqb_neq in Hd. rewrite Hd. cbn.
    rewrite Nat.add_1_r in Hk. apply Hk.
  - inversion HM as [ | | | ng rs d pos' rest' Hd | | | | | | | | | | | | | ]; subst.
    cbn in *. rewrite Hd. rewrite Nat.add_1_r in Hk. apply Hk.
  - inversion HM; subst. cbn in *. apply Hk.
  - inversion HM; subst. cbn in *. rewrite Nat.add_0_r in Hk. apply Hk.
  - inversion HM as [ | | | | | | i' r' pos' w' rest' Hm | | | | | | | | | | ]; subst.
    cbn [m]. apply (IH pos w rest Hm). intros cs'. apply Hk.
  - cbn [m]. apply (star_loop_complete r (m r) IH pos w rest HM).
    + rewrite length_append. lia.
    + exact Hk.
  - inversion HM as [ | | | | | | | | | r' pos' w1 w2 rest' Hm1 Hm2 | | | | | | | ];
      subst.
    cbn [m]. rewrite (append_assoc w1 w2 rest).
    apply (IH pos w1 (w2 ++ rest)%string Hm1).
    intros cs'. apply (star_loop_complete r (m r) IH _ _ _ Hm2).
    + rewrite !length_append. lia.
    + intros cs''. rewrite <- Nat.add_assoc, <- length_append. apply Hk.
  - cbn [m]. destruct (m r k pos (w ++ rest)%string cs) as [o|] eqn:E;
      [discriminate|].
    inversion HM as [ | | | | | | | | | | r' pos' rest' | r' pos' w' rest' Hm
                    | | | | | ]; subst.
    + cbn in *. rewrite Nat.add_0_r in Hk. apply Hk.
    + exfalso. revert E. apply (IH pos w rest Hm). exact Hk.
  - cbn [m]. now apply (repeat_n_complete r (m r) IH n pos w rest HM).
  - inversion HM as [ | | | | | | | | | | | | | | r1' r2' pos' w1 w2 rest' Hm1 Hm2
                    | | ]; subst.
    cbn [m]. rewrite append_assoc.
    apply (IH1 pos w1 (w2 ++ rest)%string Hm1).
    intros cs'. apply (IH2 _ _ _ Hm2).
    intros cs''. rewrite <- Nat.add_assoc, <- length_append. apply Hk.
  - cbn [m]. destruct (m r1 k pos (w ++ rest)%string cs) as [o|] eqn:E;
      [discriminate|].
    inversion HM as [ | | | | | | | | | | | | | |
                    | r1' r2' pos' w' rest' Hm | r1' r2' pos' w' rest' Hm ]; subst.
    + exfalso. revert E. apply (IH1 pos w rest Hm). exact Hk.
    + apply (IH2 pos w rest Hm). exact Hk.
Qed.

(** The search succeeds as soon as the text holds a word of the pattern. *)
Theorem search_complete (re : Regexp) (pre w rest : string) (pos : nat) :
  Matches (prog re) (pos + String.length pre) w rest ->
  search re pos (pre ++ w ++ rest)%string <> None.
Proof.
  revert pos. induction pre as [|c pre IH]; intros pos HM; rewrite search_unfold.
  - cbn [append String.length] in *. rewrite Nat.add_0_r in HM.
    destruct (m _ _ pos _ _) as [o|] eqn:E; [discriminate|].
    exfalso. revert E. apply (m_complete _ _ _ _ HM). discriminate.
  - destruct (m _ _ pos _ _) as [o|] eqn:E; [discriminate|].
    cbn [append]. apply IH. cbn [String.length] in HM.
    now rewrite Nat.add_succ_r in HM.
Qed.

(** [MatchString] decides whether the text holds a word of the pattern. *)
Theorem MatchString_iff (re : Regexp) (s : string) :
  MatchString re s = true <->
  exists pre w rest,
    s = (pre ++ w ++ rest)%string /\ Matches (prog re) (String.length pre) w rest.
Proof.
  unfold MatchString. split.
  - destruct (search re 0 s) as [out|] eqn:E; [|discriminate]. intros _.
    apply search_sound in E. exact E.
  - intros (pre & w & rest & -> & HM).
    pose proof (search_complete re pre w rest 0 HM) as H.
    now destruct (search re 0 _).
Qed.

Lemma Matches_lits_inv (s : string) (r : regex) pos w rest :
  Matches (lits s r) pos w rest ->
  exists w', w = (s ++ w')%string /\ Matches r (pos + String.length s) w' rest.
Proof.
  revert pos w. induction s as [|c s IH]; intros pos w HM; cbn [lits] in HM.
  - exists w. cbn. now rewrite Nat.add_0_r.
  - inversion HM as [ | | | | | | | | | | | | | | r1' r2' pos' w1 w2 rest' Hm1 Hm2
                    | | ]; subst.
    inversion Hm1; subst.
    apply IH in Hm2 as (w' & -> & Hm2).
    exists w'. cbn [append String.length] in *. split; [reflexivity|].
    replace (pos + S (String.length s)) with (pos + 1 + String.length s) by lia.
    exact Hm2.
Qed.

Lemma Matches_lits (s : string) (r : regex) pos w' rest :
  Matches r (pos + String.length s) w' rest ->
  Matches (lits s r) pos (s ++ w')%string rest.
Proof.
  revert pos. induction s as [|c s IH]; intros pos HM; cbn [lits append].
  - cbn in HM. now rewrite Nat.add_0_r in HM.
  - change (String c (s ++ w')) with (String c "" ++ (s ++ w'))%string.
    apply MConcat; [constructor|]. apply IH.
    cbn [String.length] in *.
    replace (pos + 1 + String.length s) with (pos + S (String.length s)) by lia.
    exact HM.
Qed.

End RegexpFacts.

Import RegexpFacts.

(** ** The instance-group pattern *)

Lemma poolRe_compiles :
  poolRe =
  Ok (regexp.mkRegexp
        "zones/([^/]+)/instanceGroupManagers/(gk[e|3]-.*-([0-9a-f]{8})-grp)$"
        poolRe_prog 3).
Proof. vm_compute. reflexivity. Qed.

(** Every word of the pool pattern holds the path segment
    [/instanceGroupManagers/] after a zone. *)
Lemma poolRe_words (pos : nat) (w rest : string) :
  regexp.Matches poolRe_prog pos w rest ->
  exists z tail, w = "zones/" ++ z ++ "/instanceGroupManagers/" ++ tail.
Proof.
  unfold poolRe_prog. cbv zeta. intros HM.
  apply Matches_lits_inv in HM as (w1 & -> & HM).
  inversion HM as [ | | | | | | | | | | | | | | r1' r2' pos' z w2 rest' Hm1 Hm2
                  | | ]; subst.
  apply (Matches_lits_inv "/instanceGroupManagers/") in Hm2 as (tail & -> & _).
  now exists z, tail.
Qed.

Lemma poolRe_needs_segment (re : regexp.Regexp) (url : string) :
  poolRe = Ok re ->
  Contains url "/instanceGroupManagers/" = false ->
  regexp.FindStringSubmatch re url = [].
Proof.
  rewrite poolRe_compiles. intros [= <-] Hno.
  unfold regexp.FindStringSubmatch.
  destruct (regexp.search _ 0 url) as [out|] eqn:E; [exfalso | reflexivity].
  apply search_sound in E as (pre & w & rest & -> & HM).
  cbn [regexp.prog] in HM. apply poolRe_words in HM as (z & tail & ->).
  assert (Hc : Contains (pre ++ ("zones/" ++ z ++ "/instanceGroupManagers/" ++ tail) ++ rest)
                 "/instanceGroupManagers/" = true).
  { apply Contains_true_iff. exists (pre ++ "zones/" ++ z), (tail ++ rest).
    now rewrite !append_assoc. }
  congruence.
Qed.

(** C3.  Against the pool pattern, the instance-group URL of the design
    document matches, with zone "us-central1-a", pool name
    "gke-mycluster-pool-90fcb815-grp" and unique hash "90fcb815" (eight
    hexadecimal characters) as submatches 1, 2 and 3; and every URL without
    the path segment [/instanceGroupManagers/] (in particular every URL
    in which the word instanceGroupManagers does not occur) has no match. *)
Theorem poolRe_instance_group_url (url : string) :
  Contains url "/instanceGroupManagers/" = false ->
  exists re,
    poolRe = Ok re /\
    regexp.FindStringSubmatch re
      "https://www.googleapis.com/compute/v1/projects/p/zones/us-central1-a/instanceGroupManagers/gke-mycluster-pool-90fcb815-grp" =
      [ "zones/us-central1-a/instanceGroupManagers/gke-mycluster-pool-90fcb815-grp";
        "us-central1-a";
        "gke-mycluster-pool-90fcb815-grp";
        "90fcb815" ] /\
    String.length "90fcb815" = 8%nat /\
    forallb (regexp.class_mem false [("0", "9"); ("a", "f")]%char)
      (list_ascii_of_string "90fcb815") = true /\
    regexp.FindStringSubmatch re url = [].
Proof.
  intros Hno. eexists. split; [exact poolRe_compiles|].
  split; [vm_compute; reflexivity|].
  split; [reflexivity|]. split; [reflexivity|].
  exact (poolRe_needs_segment _ url poolRe_compiles Hno).
Qed.

Lemma poolRe_instance_group_url_witness :
  exists re,
    poolRe = Ok re /\
    regexp.FindStringSubmatch re
      "https://www.googleapis.com/compute/v1/projects/p/zones/us-central1-a/instanceGroupManagers/gke-mycluster-pool-90fcb815-grp" =
      [ "zones/us-central1-a/instanceGroupManagers/gke-mycluster-pool-90fcb815-grp";
        "us-central1-a";
        "gke-mycluster-pool-90fcb815-grp";
        "90fcb815" ] /\
    String.length "90fcb815" = 8%nat /\
    forallb (regexp.class_mem false [("0", "9"); ("a", "f")]%char)
      (list_ascii_of_string "90fcb815") = true /\
    regexp.FindStringSubmatch re
      "https://www.googleapis.com/compute/v1/projects/p/zones/us-central1-a/instanceGroups/gke-mycluster-pool-90fcb815-grp" = [].
Proof.
  apply (poolRe_instance_group_url
    "https://www.googleapis.com/compute/v1/projects/p/zones/us-central1-a/instanceGroups/gke-mycluster-pool-90fcb815-grp").
  vm_compute. reflexivity.
Defined.

(** C10.  The bracket class of the pool pattern, written [[e|3]], holds the
    pipe character beside [e] and [3]: a URL whose manager name starts with
    "gk|-" and ends in an eight-hex-character hash and "-grp" is parsed
    like a gke or gk3 one. *)
Theorem poolRe_accepts_pipe_prefix :
  exists re,
    poolRe = Ok re /\
    regexp.prog re = poolRe_prog /\
    regexp.class_mem false [("e", "e"); ("|", "|"); ("3", "3")]%char "|" = true /\
    HasPrefix "gk|-mycluster-pool-90fcb815-grp" "gk|-" = true /\
    regexp.FindStringSubmatch re
      "https://www.googleapis.com/compute/v1/projects/p/zones/us-central1-a/instanceGroupManagers/gk|-mycluster-pool-90fcb815-grp" =
      [ "zones/us-central1-a/instanceGroupManagers/gk|-mycluster-pool-90fcb815-grp";
        "us-central1-a";
        "gk|-mycluster-pool-90fcb815-grp";
        "90fcb815" ].
Proof.
  eexists. split; [exact poolRe_compiles|].
  repeat split; vm_compute; reflexivity.
Qed.

(** ** The configuration checks and the defaults *)

(** C4.  [VerifyLocationFlags] returns an error exactly when zones and
    regions are not exactly-one-non-empty: one message when both are empty,
    another when both are set, and nil when exactly one is set.  It leaves
    the deployer as it found it, the retry counters included. *)
Theorem VerifyLocationFlags_exactly_one (d : Deployer) :
  (fst (VerifyLocationFlags d) <> None <->
   ~ ((Zones d <> [] /\ Regions d = []) \/ (Zones d = [] /\ Regions d <> []))) /\
  (Zones d = [] -> Regions d = [] ->
   fst (VerifyLocationFlags d) =
     Some "--zone or --region must be set for GKE deployment") /\
  (Zones d <> [] -> Regions d <> [] ->
   fst (VerifyLocationFlags d) = Some "--zone and --region cannot both be set") /\
  snd (VerifyLocationFlags d) = d /\
  retryCount (snd (VerifyLocationFlags d)) = retryCount d /\
  totalTryCount (snd (VerifyLocationFlags d)) = totalTryCount d.
Proof.
  unfold VerifyLocationFlags.
  destruct (Zones d) as [|z zs], (Regions d) as [|r rs]; cbn.
  all: repeat split; try congruence.
  all: try (intros; discriminate).
  - intros _ [[H _]|[_ H]]; congruence.
  - intros H _. apply H. right. split; [reflexivity | discriminate].
  - intros H _. apply H. left. split; [discriminate | reflexivity].
  - intros _ [[_ H]|[H _]]; discriminate.
Qed.

(** C7.  The deployer made by [New] carries the pool defaults: 3 nodes of
    machine type "n1-standard-2" for the default Linux pool, 1 node for the
    default Windows pool, one cluster, node counts and machine types taken
    from the two default pools, and one Boskos project requested. *)
Theorem New_defaults (ext : Elsewhere) (opts : types.Options) :
  Nodes defaultNodePool = 3 /\
  MachineType defaultNodePool = "n1-standard-2" /\
  Nodes defaultWindowsNodePool = 1 /\
  options.NumClusters (UpOptions (New ext opts)) = 1 /\
  options.NumNodes (UpOptions (New ext opts)) = Nodes defaultNodePool /\
  options.MachineType (UpOptions (New ext opts)) = MachineType defaultNodePool /\
  options.WindowsNumNodes (UpOptions (New ext opts)) = Nodes defaultWindowsNodePool /\
  options.WindowsMachineType (UpOptions (New ext opts)) =
    MachineType defaultWindowsNodePool /\
  options.BoskosProjectsRequested (UpOptions (New ext opts)) = 1 /\
  options.NumNodes (UpOptions (New ext opts)) = 3 /\
  options.MachineType (UpOptions (New ext opts)) = "n1-standard-2" /\
  options.WindowsNumNodes (UpOptions (New ext opts)) = 1.
Proof. repeat split. Qed.

(** C8.  The allowed-ports specification of the firewall rules is the one
    fixed string. *)
Theorem e2eAllow_ports :
  e2eAllow = "tcp:22,tcp:80,tcp:8080,tcp:30000-32767,udp:30000-32767".
Proof. reflexivity. Qed.

(** ** Retryable errors *)

Lemma stockout_compiles :
  regexp.Compile gceStockoutErrorPattern =
  Some (regexp.mkRegexp gceStockoutErrorPattern stockout_prog 0).
Proof. vm_compute. reflexivity. Qed.

(** The stockout pattern is found in a text exactly when the text holds the
    stockout phrase. *)
Lemma stockout_matches (text : string) :
  regexp.MatchString (regexp.mkRegexp gceStockoutErrorPattern stockout_prog 0) text =
  Contains text stockoutPhrase.
Proof.
  apply eq_true_iff_eq. rewrite MatchString_iff, Contains_true_iff.
  cbn [regexp.prog]. unfold stockout_prog. split.
  - intros (pre & w & rest & -> & HM).
    inversion HM as [ | | | | | | | | | | | | | | r1' r2' pos' w1 w2 rest' Hm1 Hm2
                    | | ]; subst.
    apply (Matches_lits_inv stockoutPhrase) in Hm2 as (tail & -> & _).
    exists (pre ++ w1), (tail ++ rest). now rewrite !append_assoc.
  - intros (pre & post & ->).
    exists pre, stockoutPhrase, post. split; [reflexivity|].
    change stockoutPhrase with ("" ++ stockoutPhrase) at 2.
    apply regexp.MConcat; [constructor|].
    rewrite <- (append_nil_r stockoutPhrase) at 2.
    apply Matches_lits. constructor.
Qed.

(** C5.  With the default configuration the retryable-error pattern list is
    the single stockout pattern; it compiles, and under the compiled set an
    error text [text] is retryable exactly when it holds the stockout
    phrase anywhere.  Under any pattern set, an error text [other] that
    matches none of the patterns is not retryable. *)
Theorem default_patterns_classify
    (ext : Elsewhere) (opts : types.Options) (text : string)
    (patterns : list regexp.Regexp) (other : string) :
  (forall re, In re patterns -> regexp.MatchString re other = false) ->
  options.RetryableErrorPatterns (UpOptions (New ext opts)) =
    [gceStockoutErrorPattern] /\
  gceStockoutErrorPattern = ".*" ++ stockoutPhrase ++ ".*" /\
  (exists re,
     compilePatterns (options.RetryableErrorPatterns (UpOptions (New ext opts))) =
       Some [re] /\
     regexp.expr re = gceStockoutErrorPattern /\
     isRetryable [re] text = Contains text stockoutPhrase /\
     (Contains text stockoutPhrase = true -> isRetryable [re] text = true)) /\
  isRetryable patterns other = false.
Proof.
  intros Hnone. split; [reflexivity|]. split; [reflexivity|]. split.
  - exists (regexp.mkRegexp gceStockoutErrorPattern stockout_prog 0).
    cbn [New UpOptions options.RetryableErrorPatterns compilePatterns].
    rewrite stockout_compiles. split; [reflexivity|]. split; [reflexivity|].
    assert (E : isRetryable
                  [regexp.mkRegexp gceStockoutErrorPattern stockout_prog 0] text =
                Contains text stockoutPhrase).
    { unfold isRetryable. cbn [existsb]. now rewrite orb_false_r, stockout_matches. }
    split; [exact E | intros H; now rewrite E].
  - unfold isRetryable. induction patterns as [|re res IH]; [reflexivity|].
    cbn [existsb]. rewrite (Hnone re (or_introl eq_refl)). cbn [orb].
    apply IH. intros re' Hin. apply Hnone. now right.
Qed.

Lemma default_patterns_classify_witness :
  isRetryable [regexp.mkRegexp gceStockoutErrorPattern stockout_prog 0]
    "ERROR: (gcloud.container.clusters.create) Operation failed: zone us-central1-a does not have enough resources available to fulfill the request; try a different zone" = true /\
  isRetryable [regexp.mkRegexp gceStockoutErrorPattern stockout_prog 0]
    "ERROR: quota exceeded" = false.
Proof.
  pose proof (default_patterns_classify
    (mkElsewhere "" "" "" 0 0 (fun _ => ""))
    (types.mkOptions "")
    "ERROR: (gcloud.container.clusters.create) Operation failed: zone us-central1-a does not have enough resources available to fulfill the request; try a different zone"
    [regexp.mkRegexp gceStockoutErrorPattern stockout_prog 0]
    "ERROR: quota exceeded") as H.
  destruct H as (_ & _ & (re & Hc & _ & _ & Hyes) & Hno).
  - intros re [<-|[]]. vm_compute. reflexivity.
  - split; [|exact Hno].
    cbn [New UpOptions options.RetryableErrorPatterns compilePatterns] in Hc.
    rewrite stockout_compiles in Hc. injection Hc as <-.
    apply Hyes. vm_compute. reflexivity.
Defined.

(** ** The retry budget *)

Module OrchestratorFacts.

Import Orchestrator.






End OrchestratorFacts.

Import Orchestrator OrchestratorFacts.

(** The two scenarios of the design document, and a failure that is not
    retryable. *)

Example three_zones_third_succeeds :
  exists s,
    exec (configured (New (mkElsewhere "" "" "" 0 0 (fun _ => "")) (types.mkOptions ""))
            ["z1-a"; "z2-b"; "z3-c"] 3
            [regexp.mkRegexp gceStockoutErrorPattern stockout_prog 0])
         [Failure "z1-a does not have enough resources available to fulfill the request";
          Failure "z2-b does not have enough resources available to fulfill the request";
          Success "created"]
      = Ok s /\
    st s = Succeeded /\ retryCount (dep s) = 2 /\
    attempts s = ["--zone=z1-a"; "--zone=z2-b"; "--zone=z3-c"].
Proof. eexists. split; [vm_compute; reflexivity|]. repeat split. Qed.

Example budget_two_both_stockout :
  exists s,
    exec (configured (New (mkElsewhere "" "" "" 0 0 (fun _ => "")) (types.mkOptions ""))
            ["z1-a"; "z2-b"; "z3-c"] 2
            [regexp.mkRegexp gceStockoutErrorPattern stockout_prog 0])
         [Failure "z1-a does not have enough resources available to fulfill the request";
          Failure "z2-b does not have enough resources available to fulfill the request"]
      = Ok s /\
    st s = Exhausted "z2-b does not have enough resources available to fulfill the request" /\
    retryCount (dep s) = 1 /\
    attempts s = ["--zone=z1-a"; "--zone=z2-b"].
Proof. eexists. split; [vm_compute; reflexivity|]. repeat split. Qed.

Example other_failure_is_final :
  exists s,
    exec (configured (New (mkElsewhere "" "" "" 0 0 (fun _ => "")) (types.mkOptions ""))
            ["z1-a"; "z2-b"; "z3-c"] 3
            [regexp.mkRegexp gceStockoutErrorPattern stockout_prog 0])
         [Failure "permission denied"; Success "created"]
      = Ok s /\
    st s = Exhausted "permission denied" /\ retryCount (dep s) = 0 /\
    attempts s = ["--zone=z1-a"].
Proof. eexists. split; [vm_compute; reflexivity|]. repeat split. Qed.

Example no_location_configured :
  exists s,
    exec (New (mkElsewhere "" "" "" 0 0 (fun _ => "")) (types.mkOptions ""))
         [Success "created"]
      = Ok s /\
    st s = LocationConfigError "--zone or --region must be set for GKE deployment" /\
    retryCount (dep s) = 0 /\ attempts s = [].
Proof. eexists. split; [vm_compute; reflexivity|]. repeat split. Qed.




(** ** Location selection: bounds, failures and how the two functions agree *)

(** X1.  [locationFlag] returns a flag exactly when the retry count is
    within the bounds of the list it selects from (the zones when there are
    any, else the regions); outside them it panics with that index and that
    list's length, so that regions are never consulted while zones are set;
    a flag it returns is the selected list's entry behind "--zone=" or
    "--region=". *)
Theorem locationFlag_defined_iff (regions zones : list string) (i : Z) :
  ((exists flag, locationFlag regions zones i = Ok flag) <->
   0 <= i < len (if negb (len zones =? 0) then zones else regions)) /\
  (~ (0 <= i < len (if negb (len zones =? 0) then zones else regions)) ->
   locationFlag regions zones i =
     Panic (IndexOutOfRange i (len (if negb (len zones =? 0) then zones else regions)))) /\
  (forall flag,
     locationFlag regions zones i = Ok flag ->
     flag = (if negb (len zones =? 0) then "--zone=" else "--region=")
            ++ nth (Z.to_nat i) (if negb (len zones =? 0) then zones else regions) "") /\
  (zones <> [] -> forall regions', locationFlag regions' zones i = locationFlag regions zones i).
Proof.
  assert (Hdec : forall l : list string, {0 <= i < len l} + {~ (0 <= i < len l)}).
  { intros l. destruct (Z_le_dec 0 i), (Z_lt_dec i (len l)); (left; lia) || (right; lia). }
  assert (Hne : zones <> [] -> negb (len zones =? 0) = true).
  { intros H. destruct zones; [contradiction | reflexivity]. }
  split; [|split; [|split]].
  - unfold locationFlag.
    destruct (negb (len zones =? 0)), (Hdec zones) as [Hz|Hz], (Hdec regions) as [Hr|Hr];
      rewrite ?(index_in_bounds _ i Hz), ?(index_in_bounds _ i Hr),
              ?(index_out_of_bounds _ i Hz), ?(index_out_of_bounds _ i Hr); cbn [bind];
      (split; [intros [flag Hf]; (exact Hz || exact Hr || discriminate)
              | intros H; (eauto || contradiction)]).
  - intros Hout. unfold locationFlag.
    destruct (negb (len zones =? 0)); now rewrite (index_out_of_bounds _ i Hout).
  - intros flag. unfold locationFlag.
    destruct (negb (len zones =? 0)), (Hdec zones) as [Hz|Hz], (Hdec regions) as [Hr|Hr];
      rewrite ?(index_in_bounds _ i Hz), ?(index_in_bounds _ i Hr),
              ?(index_out_of_bounds _ i Hz), ?(index_out_of_bounds _ i Hr); cbn [bind];
      congruence.
  - intros H regions'. unfold locationFlag. now rewrite (Hne H).
Qed.

Lemma regionFromLocation_zone (regions zones : list string) (i : Z) :
  0 <= i < len zones ->
  regionFromLocation regions zones i =
    slice (nth (Z.to_nat i) zones "") 0 (LastIndex (nth (Z.to_nat i) zones "") "-").
Proof.
  intros Hi. unfold regionFromLocation.
  now rewrite (len_nonempty zones i Hi), (index_in_bounds zones i Hi).
Qed.

(** The slice up to the last hyphen, when there is a hyphen, is the part
    before a hyphen-free suffix. *)
Lemma slice_to_last_hyphen (zone : string) :
  Contains zone "-" = true ->
  exists region suffix,
    zone = region ++ "-" ++ suffix /\ Contains suffix "-" = false /\
    slice zone 0 (LastIndex zone "-") = Ok region.
Proof.
  intros Hc. destruct (split_at_last_hyphen zone Hc) as (region & suffix & Hz & Hs).
  exists region, suffix. split; [exact Hz|]. split; [exact Hs|].
  rewrite Hz, (LastIndex_last region "-" suffix "-"%char "" eq_refl Hs).
  apply slice_prefix.
Qed.

(** X2.  [regionFromLocation] fails in two ways only: with an index out of
    range when the retry count is outside the list it selects from, and
    with slice bounds [:-1] when the selected zone has no hyphen.  What it
    returns is a prefix of the selected entry, and regions are never
    consulted while zones are set. *)
Theorem regionFromLocation_outcomes (regions zones : list string) (i : Z) :
  (~ (0 <= i < len (if negb (len zones =? 0) then zones else regions)) ->
   regionFromLocation regions zones i =
     Panic (IndexOutOfRange i (len (if negb (len zones =? 0) then zones else regions)))) /\
  (forall p,
     regionFromLocation regions zones i = Panic p ->
     (~ (0 <= i < len (if negb (len zones =? 0) then zones else regions)) /\
      p = IndexOutOfRange i (len (if negb (len zones =? 0) then zones else regions))) \/
     (0 <= i < len zones /\
      Contains (nth (Z.to_nat i) zones "") "-" = false /\
      p = SliceBoundsOutOfRange (-1) (strlen (nth (Z.to_nat i) zones "")))) /\
  (forall r,
     regionFromLocation regions zones i = Ok r ->
     0 <= i < len (if negb (len zones =? 0) then zones else regions) /\
     HasPrefix (nth (Z.to_nat i) (if negb (len zones =? 0) then zones else regions) "") r
       = true) /\
  (zones <> [] ->
   forall regions', regionFromLocation regions' zones i = regionFromLocation regions zones i).
Proof.
  assert (Hdec : forall l : list string, {0 <= i < len l} + {~ (0 <= i < len l)}).
  { intros l. destruct (Z_le_dec 0 i), (Z_lt_dec i (len l)); (left; lia) || (right; lia). }
  assert (Hout : ~ (0 <= i < len (if negb (len zones =? 0) then zones else regions)) ->
            regionFromLocation regions zones i =
              Panic (IndexOutOfRange i
                       (len (if negb (len zones =? 0) then zones else regions)))).
  { intros H. unfold regionFromLocation.
    destruct (negb (len zones =? 0)); now rewrite (index_out_of_bounds _ i H). }
  split; [exact Hout|].
  destruct (Hdec (if negb (len zones =? 0) then zones else regions)) as [Hin|Hno].
  2:{ specialize (Hout Hno). split; [|split].
      - intros p Hp. left. split; [exact Hno | congruence].
      - intros r Hr. congruence.
      - intros H regions'. unfold regionFromLocation.
        destruct zones; [contradiction | reflexivity]. }
  destruct (negb (len zones =? 0)) eqn:Ez.
  - rewrite (regionFromLocation_zone regions zones i Hin).
    destruct (Contains (nth (Z.to_nat i) zones "") "-") eqn:Hc.
    + destruct (slice_to_last_hyphen _ Hc) as (region & suffix & Hz & Hs & ->).
      split; [discriminate|]. split.
      * intros r [= <-]. split; [exact Hin|]. rewrite Hz. apply HasPrefix_app.
      * intros _ regions'. now rewrite (regionFromLocation_zone regions' zones i Hin), Hz,
          (LastIndex_last region "-" suffix "-"%char "" eq_refl Hs), slice_prefix.
    + rewrite (LastIndex_absent _ _ Hc), slice_negative by lia.
      split; [|split; [discriminate|]].
      * intros p [= <-]. right. auto.
      * intros _ regions'. now rewrite (regionFromLocation_zone regions' zones i Hin),
          (LastIndex_absent _ _ Hc), slice_negative by lia.
  - unfold regionFromLocation. rewrite Ez, (index_in_bounds regions i Hin).
    split; [discriminate|]. split.
    + intros r [= <-]. split; [exact Hin|].
      rewrite <- (RegexpFacts.append_nil_r (nth _ regions "")) at 1.
      apply HasPrefix_app.
    + intros H. destruct zones; [contradiction | discriminate].
Qed.

(** X3.  Whenever [regionFromLocation] returns a region, [locationFlag]
    returns a flag for the same arguments, and the two agree: with regions
    configured the flag is "--region=" followed by that region, with zones
    configured it is "--zone=" followed by that region, a hyphen and a
    hyphen-free suffix. *)
Theorem location_and_region_agree (regions zones : list string) (i : Z) (r : string) :
  regionFromLocation regions zones i = Ok r ->
  (zones = [] /\ locationFlag regions zones i = Ok ("--region=" ++ r)) \/
  (zones <> [] /\
   exists suffix,
     Contains suffix "-" = false /\
     locationFlag regions zones i = Ok ("--zone=" ++ r ++ "-" ++ suffix)).
Proof.
  intros Hr.
  assert (Hdec : forall l : list string, {0 <= i < len l} + {~ (0 <= i < len l)}).
  { intros l. destruct (Z_le_dec 0 i), (Z_lt_dec i (len l)); (left; lia) || (right; lia). }
  destruct zones as [|z zs].
  - left. split; [reflexivity|]. unfold regionFromLocation, locationFlag in *.
    cbn [len List.length Z.of_nat Z.eqb negb] in *. now rewrite Hr.
  - right. split; [discriminate|]. set (zones := z :: zs) in *.
    destruct (Hdec zones) as [Hin|Hno].
    2:{ unfold regionFromLocation in Hr. change (negb (len zones =? 0)) with true in Hr.
        cbv iota in Hr. rewrite (index_out_of_bounds _ i Hno) in Hr. discriminate. }
    rewrite (regionFromLocation_zone regions zones i Hin) in Hr.
    destruct (Contains (nth (Z.to_nat i) zones "") "-") eqn:Hc.
    + destruct (slice_to_last_hyphen _ Hc) as (region & suffix & Hz & Hs & Hsl).
      rewrite Hsl in Hr. injection Hr as <-. exists suffix. split; [exact Hs|].
      unfold locationFlag. change (negb (len zones =? 0)) with true. cbv iota.
      now rewrite (index_in_bounds zones i Hin), Hz.
    + rewrite (LastIndex_absent _ _ Hc), slice_negative in Hr by lia. discriminate.
Qed.

Lemma location_and_region_agree_witness :
  (["us-central1-a"; "europe-west4-b"] = [] /\
   locationFlag [] ["us-central1-a"; "europe-west4-b"] 1 =
     Ok ("--region=" ++ "europe-west4")) \/
  (["us-central1-a"; "europe-west4-b"] <> [] /\
   exists suffix,
     Contains suffix "-" = false /\
     locationFlag [] ["us-central1-a"; "europe-west4-b"] 1 =
       Ok ("--zone=" ++ "europe-west4" ++ "-" ++ suffix)).
Proof.
  apply (location_and_region_agree [] ["us-central1-a"; "europe-west4-b"] 1 "europe-west4").
  reflexivity.
Defined.

(** X4.  Once [VerifyLocationFlags] has returned nil, every retry count
    from 0 up to, and not including, the number of configured locations
    selects a location: either
    zones are the ones configured and the flag is "--zone=" with the zone
    at that index, or regions are and the flag is "--region=" with that
    region, which is also what [regionFromLocation] returns. *)
Theorem verified_location_defined (d : Deployer) (i : Z) :
  fst (VerifyLocationFlags d) = None ->
  0 <= i < Z.max (len (Zones d)) (len (Regions d)) ->
  (Zones d <> [] /\ Regions d = [] /\
   locationFlag (Regions d) (Zones d) i = Ok ("--zone=" ++ nth (Z.to_nat i) (Zones d) "")) \/
  (Zones d = [] /\ Regions d <> [] /\
   locationFlag (Regions d) (Zones d) i = Ok ("--region=" ++ nth (Z.to_nat i) (Regions d) "") /\
   regionFromLocation (Regions d) (Zones d) i = Ok (nth (Z.to_nat i) (Regions d) "")).
Proof.
  unfold VerifyLocationFlags, locationFlag, regionFromLocation.
  destruct (Zones d) as [|z zs], (Regions d) as [|r rs];
    cbn [len List.length Z.of_nat Z.eqb negb andb fst]; try discriminate; intros _ Hi.
  - right. split; [reflexivity|]. split; [discriminate|].
    assert (Hr : 0 <= i < len (r :: rs)) by (unfold len in *; cbn [List.length] in *; lia).
    now rewrite (index_in_bounds _ i Hr).
  - left. split; [discriminate|]. split; [reflexivity|].
    assert (Hz : 0 <= i < len (z :: zs)) by (unfold len in *; cbn [List.length] in *; lia).
    change (negb (len (z :: zs) =? 0)) with true. cbv iota.
    now rewrite (index_in_bounds _ i Hz).
Qed.

Lemma verified_location_defined_witness :
  locationFlag [] ["us-central1-a"; "us-east1-b"] 1 = Ok "--zone=us-east1-b".
Proof.
  destruct (verified_location_defined
              (Orchestrator.configured
                 (New (mkElsewhere "" "" "" 0 0 (fun _ => "")) (types.mkOptions ""))
                 ["us-central1-a"; "us-east1-b"] 2 [])
              1) as [(_ & _ & H)|(H & _)].
  - reflexivity.
  - cbn. lia.
  - exact H.
  - discriminate H.
Defined.

(** X5.  A deployer as [New] returns it has no location yet:
    [VerifyLocationFlags] refuses it with the must-be-set error, and both
    location functions panic at every retry count with an index out of
    range of an empty list. *)
Theorem New_has_no_location (ext : Elsewhere) (opts : types.Options) (i : Z) :
  fst (VerifyLocationFlags (New ext opts)) =
    Some "--zone or --region must be set for GKE deployment" /\
  locationFlag (Regions (New ext opts)) (Zones (New ext opts)) i =
    Panic (IndexOutOfRange i 0) /\
  regionFromLocation (Regions (New ext opts)) (Zones (New ext opts)) i =
    Panic (IndexOutOfRange i 0).
Proof.
  split; [reflexivity|].
  assert (H : ~ (0 <= i < len (@nil string))) by (unfold len; cbn; lia).
  unfold locationFlag, regionFromLocation. cbn [New Zones Regions CommonOptions
    options.Zones options.Regions len List.length Z.of_nat Z.eqb negb].
  now rewrite (index_out_of_bounds (@nil string) i H).
Qed.

(** ** Submatches of the matcher *)

Module CaptureFacts.

Import regexp captures.

Local Open Scope nat_scope.

Ltac empty_wordC s cs H :=
  exists ""%string, s, cs; cbn [append String.length];
  rewrite ?Nat.add_0_r; repeat split; [constructor | exact H].

Lemma step_soundC (r : regex) (p : ascii -> bool) :
  (forall c pos rest cs, p c = true -> MatchesC r pos (String c "") rest cs cs) ->
  soundC r (step p).
Proof.
  intros Hr k pos s cs out H.
  apply step_inv in H as (c & rest & -> & Hp & Hk).
  exists (String c ""), rest, cs. cbn [append String.length].
  rewrite Nat.add_1_r. auto.
Qed.

Lemma star_loop_soundC (r : regex) (body : cont -> cont) :
  soundC r body -> forall fuel, soundC (Star r) (star_loop body fuel).
Proof.
  intros Hb fuel. induction fuel as [|fuel IH]; intros k pos s cs out H.
  - cbn in H. empty_wordC s cs H.
  - cbn [star_loop] in H.
    match type of H with
    | match ?b with _ => _ end = _ => destruct b as [o|] eqn:E
    end.
    + injection H as ->.
      apply Hb in E as (w1 & rest1 & cs1 & -> & Hm & Hk).
      destruct (Nat.ltb pos (pos + String.length w1)) eqn:Hlt; [|discriminate].
      apply Nat.ltb_lt in Hlt.
      apply IH in Hk as (w2 & rest & cs2 & -> & Hm2 & Hk).
      exists (w1 ++ w2)%string, rest, cs2.
      rewrite append_assoc, length_append, Nat.add_assoc.
      repeat split; [|exact Hk].
      apply CStarMore with (cs1 := cs1); [exact Hm | | exact Hm2].
      intros ->. cbn in Hlt. lia.
    + empty_wordC s cs H.
Qed.

Lemma repeat_n_soundC (r : regex) (body : cont -> cont) :
  soundC r body -> forall n, soundC (Repeat n r) (repeat_n body n).
Proof.
  intros Hb n. induction n as [|n IH]; intros k pos s cs out H.
  - cbn in H. empty_wordC s cs H.
  - cbn [repeat_n] in H.
    apply Hb in H as (w1 & rest1 & cs1 & -> & Hm & Hk).
    apply IH in Hk as (w2 & rest & cs2 & -> & Hm2 & Hk).
    exists (w1 ++ w2)%string, rest, cs2.
    rewrite append_assoc, length_append, Nat.add_assoc.
    repeat split; [|exact Hk]. now apply CRepeatMore with (cs1 := cs1).
Qed.

(** Whatever the matcher finds is a word of the pattern, and the submatches
    it hands on are the ones that word leaves. *)
Theorem m_soundC (r : regex) : soundC r (m r).
Proof.
  induction r as [ | c | | negated ranges | | | i r IH | r IH | r IH | r IH
                 | n r IH | r1 IH1 r2 IH2 | r1 IH1 r2 IH2 ].
  - intros k pos s cs out H. cbn in H. empty_wordC s cs H.
  - apply (step_soundC (Literal c)). intros d pos rest cs Hd.
    apply Ascii.eqb_eq in Hd as <-. constructor.
  - apply (step_soundC AnyCharNotNL). intros d pos rest cs Hd.
    constructor. intros ->. now rewrite Ascii.eqb_refl in Hd.
  - apply (step_soundC (CharClass negated ranges)). intros d pos rest cs Hd.
    now constructor.
  - intros k pos s cs out H. cbn in H.
    destruct (Nat.eqb pos 0) eqn:E; [|discriminate]. apply Nat.eqb_eq in E as ->.
    empty_wordC s cs H.
  - intros k pos s cs out H. cbn in H. destruct s; [|discriminate].
    empty_wordC ""%string cs H.
  - intros k pos s cs out H. cbn [m] in H.
    apply IH in H as (w & rest & cs' & -> & Hm & Hk).
    exists w, rest, (set_cap i (pos, pos + String.length w) cs').
    repeat split; [now constructor | exact Hk].
  - intros k pos s cs out H. cbn [m] in H.
    now apply (star_loop_soundC r (m r) IH) in H.
  - intros k pos s cs out H. cbn [m] in H.
    apply IH in H as (w1 & rest1 & cs1 & E & Hm & Hk).
    apply (star_loop_soundC r (m r) IH) in Hk as (w2 & rest & cs2 & -> & Hm2 & Hk).
    exists (w1 ++ w2)%string, rest, cs2.
    rewrite append_assoc, length_append, Nat.add_assoc.
    repeat split; [exact E | now apply CPlus with (cs1 := cs1) | exact Hk].
  - intros k pos s cs out H. cbn [m] in H.
    destruct (m r k pos s cs) as [o|] eqn:E.
    + injection H as ->.
      apply IH in E as (w & rest & cs' & -> & Hm & Hk).
      exists w, rest, cs'. repeat split; [now apply CQuestOne | exact Hk].
    + empty_wordC s cs H.
  - intros k pos s cs out H. cbn [m] in H.
    now apply (repeat_n_soundC r (m r) IH) in H.
  - intros k pos s cs out H. cbn [m] in H.
    apply IH1 in H as (w1 & rest1 & cs1 & -> & Hm1 & Hk).
    apply IH2 in Hk as (w2 & rest & cs2 & -> & Hm2 & Hk).
    exists (w1 ++ w2)%string, rest, cs2.
    rewrite append_assoc, length_append, Nat.add_assoc.
    repeat split; [now apply CConcat with (cs1 := cs1) | exact Hk].
  - intros k pos s cs out H. cbn [m] in H.
    destruct (m r1 k pos s cs) as [o|] eqn:E.
    + injection H as ->.
      apply IH1 in E as (w & rest & cs' & -> & Hm & Hk).
      exists w, rest, cs'. repeat split; [now apply CAltLeft | exact Hk].
    + apply IH2 in H as (w & rest & cs' & -> & Hm & Hk).
      exists w, rest, cs'. repeat split; [now apply CAltRight | exact Hk].
Qed.

(** A successful search reports the leftmost-first match as group 0 on top
    of the submatches its word leaves. *)
Theorem search_soundC (re : Regexp) (s : string) (pos : nat) (out : caps) :
  search re pos s = Some out ->
  exists pre w rest cs',
    s = (pre ++ w ++ rest)%string /\
    MatchesC (prog re) (pos + String.length pre) w rest
      (repeat None (S (numSubexp re))) cs' /\
    out = set_cap 0 (pos + String.length pre,
                     pos + String.length pre + String.length w) cs'.
Proof.
  revert pos. induction s as [|c s IH]; intros pos H; rewrite search_unfold in H.
  - destruct (m _ _ pos ""%string _) as [o|] eqn:E; [|discriminate].
    injection H as ->.
    apply m_soundC in E as (w & rest & cs' & Hs & Hm & Hk).
    exists ""%string, w, rest, cs'. cbn [append String.length].
    rewrite Nat.add_0_r. unfold accept in Hk. injection Hk as <-. auto.
  - destruct (m _ _ pos (String c s) _) as [o|] eqn:E.
    + injection H as ->.
      apply m_soundC in E as (w & rest & cs' & Hs & Hm & Hk).
      exists ""%string, w, rest, cs'. cbn [append String.length].
      rewrite Nat.add_0_r. unfold accept in Hk. injection Hk as <-. auto.
    + apply IH in H as (pre & w & rest & cs' & -> & Hm & ->).
      exists (String c pre), w, rest, cs'. cbn [append String.length].
      rewrite Nat.add_succ_r. auto.
Qed.

(** *** Taking a match apart *)

Lemma MC_concat_inv r1 r2 pos w rest cs cs' :
  MatchesC (Concat r1 r2) pos w rest cs cs' ->
  exists w1 w2 cs1,
    w = (w1 ++ w2)%string /\ MatchesC r1 pos w1 (w2 ++ rest) cs cs1 /\
    MatchesC r2 (pos + String.length w1) w2 rest cs1 cs'.
Proof. intros H. inversion H; subst. eauto 7. Qed.

Lemma MC_capture_inv i r pos w rest cs cs' :
  MatchesC (Capture i r) pos w rest cs cs' ->
  exists cs1,
    MatchesC r pos w rest cs cs1 /\
    cs' = set_cap i (pos, pos + String.length w) cs1.
Proof. intros H. inversion H; subst. eauto. Qed.

Lemma MC_literal_inv c pos w rest cs cs' :
  MatchesC (Literal c) pos w rest cs cs' -> w = String c "" /\ cs' = cs.
Proof. intros H. inversion H; subst. auto. Qed.

Lemma MC_end_inv pos w rest cs cs' :
  MatchesC EndText pos w rest cs cs' -> w = ""%string /\ rest = ""%string /\ cs' = cs.
Proof. intros H. inversion H; subst. auto. Qed.

Lemma MC_lits_inv (s : string) (r : regex) pos w rest cs cs' :
  MatchesC (lits s r) pos w rest cs cs' ->
  exists w', w = (s ++ w')%string /\
             MatchesC r (pos + String.length s) w' rest cs cs'.
Proof.
  revert pos w. induction s as [|c s IH]; intros pos w HM; cbn [lits] in HM.
  - exists w. cbn. now rewrite Nat.add_0_r.
  - apply MC_concat_inv in HM as (w1 & w2 & cs1 & -> & H1 & H2).
    apply MC_literal_inv in H1 as [-> ->].
    apply IH in H2 as (w' & -> & H2).
    exists w'. cbn [append String.length] in *. split; [reflexivity|].
    replace (pos + S (String.length s)) with (pos + 1 + String.length s) by lia.
    exact H2.
Qed.

Lemma char_pattern_any :
  char_pattern (fun d => negb (Ascii.eqb d newline)) AnyCharNotNL.
Proof.
  intros pos w rest cs cs' H. inversion H; subst. split; [reflexivity|].
  eexists. split; [reflexivity|]. apply negb_true_iff. now apply Ascii.eqb_neq.
Qed.

Lemma char_pattern_class negated ranges :
  char_pattern (class_mem negated ranges) (CharClass negated ranges).
Proof.
  intros pos w rest cs cs' H. inversion H; subst. split; [reflexivity|]. eauto.
Qed.

Lemma all_chars_app p (s t : string) :
  all_chars p (s ++ t) = all_chars p s && all_chars p t.
Proof.
  induction s as [|c s IH]; cbn; [reflexivity|]. now rewrite IH, andb_assoc.
Qed.

Lemma MC_star_chars p r pos w rest cs cs' :
  char_pattern p r ->
  MatchesC (Star r) pos w rest cs cs' -> cs' = cs /\ all_chars p w = true.
Proof.
  intros Hp HM. remember (Star r) as sr eqn:E.
  induction HM as [ | | | | | | | r0 pos rest cs
                  | r0 pos w1 w2 rest cs cs1 cs2 Hm1 _ Hne Hm2 IH2
                  | | | | | | | | ]; try discriminate.
  - auto.
  - injection E as ->. destruct (IH2 eq_refl) as [-> Hw2].
    apply Hp in Hm1 as [-> (c & -> & Hc)]. split; [reflexivity|].
    cbn. now rewrite Hc, Hw2.
Qed.

Lemma MC_plus_chars p r pos w rest cs cs' :
  char_pattern p r ->
  MatchesC (Plus r) pos w rest cs cs' ->
  cs' = cs /\ w <> ""%string /\ all_chars p w = true.
Proof.
  intros Hp HM. inversion HM as [ | | | | | | | | | r' pos' w1 w2 rest' c0 c1 c2 H1 H2
                                | | | | | | | ]; subst.
  apply (MC_star_chars p) in H2 as [-> Hw2]; [|exact Hp].
  apply Hp in H1 as [-> (c & -> & Hc)].
  split; [reflexivity|]. split; [discriminate|]. cbn. now rewrite Hc, Hw2.
Qed.

Lemma MC_repeat_chars p r n pos w rest cs cs' :
  char_pattern p r ->
  MatchesC (Repeat n r) pos w rest cs cs' ->
  cs' = cs /\ String.length w = n /\ all_chars p w = true.
Proof.
  intros Hp. revert pos w cs. induction n as [|n IH]; intros pos w cs HM.
  - inversion HM; subst. auto.
  - inversion HM as [ | | | | | | | | | | | | | n' r' pos' w1 w2 rest' c0 c1 c2 H1 H2
                    | | | ]; subst.
    apply IH in H2 as (-> & Hl & Hw2).
    apply Hp in H1 as [-> (c & -> & Hc)].
    split; [reflexivity|]. cbn. rewrite Hc, Hw2, Hl. auto.
Qed.

(** *** Building a match from bytes *)

Lemma Matches_star_any pos w rest :
  all_chars (fun d => negb (Ascii.eqb d newline)) w = true ->
  Matches (Star AnyCharNotNL) pos w rest.
Proof.
  revert pos. induction w as [|c w IH]; intros pos H; [constructor|].
  cbn in H. apply andb_true_iff in H as [Hc Hw].
  change (String c w) with (String c "" ++ w)%string.
  apply MStarMore; [|discriminate | now apply IH].
  constructor. apply negb_true_iff in Hc. now apply Ascii.eqb_neq.
Qed.

Lemma Matches_star_class negated ranges pos w rest :
  all_chars (class_mem negated ranges) w = true ->
  Matches (Star (CharClass negated ranges)) pos w rest.
Proof.
  revert pos. induction w as [|c w IH]; intros pos H; [constructor|].
  cbn in H. apply andb_true_iff in H as [Hc Hw].
  change (String c w) with (String c "" ++ w)%string.
  apply MStarMore; [|discriminate | now apply IH]. now constructor.
Qed.

Lemma Matches_plus_class negated ranges pos w rest :
  w <> ""%string ->
  all_chars (class_mem negated ranges) w = true ->
  Matches (Plus (CharClass negated ranges)) pos w rest.
Proof.
  destruct w as [|c w]; [contradiction|]. intros _ H.
  cbn in H. apply andb_true_iff in H as [Hc Hw].
  change (String c w) with (String c "" ++ w)%string.
  apply MPlus; [now constructor | now apply Matches_star_class].
Qed.

Lemma Matches_repeat_class negated ranges pos w rest :
  all_chars (class_mem negated ranges) w = true ->
  Matches (Repeat (String.length w) (CharClass negated ranges)) pos w rest.
Proof.
  revert pos. induction w as [|c w IH]; intros pos H; [constructor|].
  cbn in H. apply andb_true_iff in H as [Hc Hw]. cbn [String.length].
  change (String c w) with (String c "" ++ w)%string.
  apply MRepeatMore; [now constructor | now apply IH].
Qed.

(** *** Bytes and substrings *)

Lemma in_range_same (c d : ascii) : in_range c c d = Ascii.eqb c d.
Proof.
  unfold in_range. destruct (Ascii.eqb_spec c d) as [->|Hne].
  - now rewrite Nat.leb_refl.
  - apply andb_false_iff.
    destruct (Nat.leb (nat_of_ascii c) (nat_of_ascii d)) eqn:E1; [|now left].
    destruct (Nat.leb (nat_of_ascii d) (nat_of_ascii c)) eqn:E2; [|now right].
    apply Nat.leb_le in E1, E2. exfalso. apply Hne.
    rewrite <- (ascii_nat_embedding c), <- (ascii_nat_embedding d).
    f_equal. lia.
Qed.

Lemma substring_middle (a b c : string) :
  substring (String.length a) (String.length b) (a ++ b ++ c) = b.
Proof.
  induction a as [|x a IH]; cbn [append String.length].
  - apply GoFacts.substring_prefix.
  - cbn [substring]. exact IH.
Qed.

Lemma submatch_at (s a b c : string) (lo hi : nat) :
  s = (a ++ b ++ c)%string ->
  lo = String.length a -> hi = lo + String.length b ->
  submatch_text s (Some (lo, hi)) = b.
Proof.
  intros -> -> ->. unfold submatch_text.
  replace (String.length a + String.length b - String.length a)
    with (String.length b) by lia.
  apply substring_middle.
Qed.

(** A string is free of the byte [c] when [Contains] does not find it. *)
Lemma all_chars_not (c : ascii) (s : string) :
  all_chars (fun d => negb (Ascii.eqb c d)) s = negb (Contains s (String c "")).
Proof.
  induction s as [|d s IH]; [reflexivity|].
  cbn [all_chars]. rewrite IH. unfold Contains. cbn [Index HasPrefix].
  rewrite andb_true_r. destruct (Ascii.eqb c d); [reflexivity|]. cbn [negb andb].
  cbv zeta. destruct (Z.ltb (Index s (String c "")) 0) eqn:E.
  - apply Z.ltb_lt in E.
    replace (Z.leb 0 (Index s (String c ""))) with false
      by (symmetry; apply Z.leb_gt; lia). reflexivity.
  - apply Z.ltb_ge in E.
    replace (Z.leb 0 (Index s (String c ""))) with true
      by (symmetry; apply Z.leb_le; lia).
    symmetry. apply negb_false_iff. apply Z.leb_le. lia.
Qed.

End CaptureFacts.

Import CaptureFacts.

(** ** The instance-group pattern on every URL *)

(** A word of the pool pattern, taken apart, with the submatch positions
    it leaves. *)
Lemma poolRe_wordC (pos : nat) (w rest : string) (cs cs' : regexp.caps) :
  captures.MatchesC poolRe_prog pos w rest cs cs' ->
  exists zone c mid uniq name,
    name = "gk" ++ String c ("-" ++ mid ++ "-" ++ uniq ++ "-grp") /\
    w = "zones/" ++ zone ++ "/instanceGroupManagers/" ++ name /\
    rest = "" /\
    zone <> "" /\
    captures.all_chars (regexp.class_mem true [("/", "/")]%char) zone = true /\
    regexp.class_mem false [("e", "e"); ("|", "|"); ("3", "3")]%char c = true /\
    captures.all_chars (fun d => negb (Ascii.eqb d regexp.newline)) mid = true /\
    String.length uniq = 8%nat /\
    captures.all_chars (regexp.class_mem false [("0", "9"); ("a", "f")]%char) uniq = true /\
    exists p1 p2 p3 : nat,
      p1 = (pos + String.length "zones/")%nat /\
      p2 = (pos + String.length ("zones/" ++ zone ++ "/instanceGroupManagers/"))%nat /\
      p3 = (pos + String.length ("zones/" ++ zone ++ "/instanceGroupManagers/"
                                   ++ "gk" ++ String c ("-" ++ mid ++ "-")))%nat /\
      cs' = regexp.set_cap 2 (p2, (p2 + String.length name)%nat)
              (regexp.set_cap 3 (p3, (p3 + String.length uniq)%nat)
                 (regexp.set_cap 1 (p1, (p1 + String.length zone)%nat) cs)).
Proof.
  unfold poolRe_prog. cbv zeta. intros HM.
  apply MC_lits_inv in HM as (w1 & -> & HM).
  apply MC_concat_inv in HM as (zone & w2 & cs1 & -> & Hz & HM).
  apply MC_capture_inv in Hz as (cs0 & Hz & ->).
  apply (MC_plus_chars _ _ _ _ _ _ _ (char_pattern_class _ _)) in Hz as (-> & Hzne & Hzc).
  apply (MC_lits_inv "/instanceGroupManagers/") in HM as (w3 & -> & HM).
  apply MC_concat_inv in HM as (name & w4 & cs2 & -> & Hn & He).
  apply MC_end_inv in He as (-> & -> & ->).
  apply MC_capture_inv in Hn as (cs3 & Hn & ->).
  apply (MC_lits_inv "gk") in Hn as (n1 & En & Hn).
  apply MC_concat_inv in Hn as (wc & n2 & cs4 & -> & Hc & Hn).
  apply char_pattern_class in Hc as (-> & c & -> & Hc).
  apply (MC_lits_inv "-") in Hn as (n3 & -> & Hn).
  apply MC_concat_inv in Hn as (mid & n4 & cs5 & -> & Hmid & Hn).
  apply (MC_star_chars _ _ _ _ _ _ _ char_pattern_any) in Hmid as (-> & Hmid).
  apply (MC_lits_inv "-") in Hn as (n5 & -> & Hn).
  apply MC_concat_inv in Hn as (uniq & n6 & cs6 & -> & Hu & Hn).
  apply MC_capture_inv in Hu as (cs7 & Hu & ->).
  apply (MC_repeat_chars _ _ _ _ _ _ _ _ (char_pattern_class _ _)) in Hu as (-> & Hul & Huc).
  apply (MC_lits_inv "-gr") in Hn as (n7 & -> & Hn).
  apply MC_literal_inv in Hn as (-> & ->).
  exists zone, c, mid, uniq, name. subst name.
  rewrite !RegexpFacts.append_nil_r.
  split; [reflexivity|]. split; [reflexivity|]. split; [reflexivity|].
  split; [exact Hzne|]. split; [exact Hzc|]. split; [exact Hc|].
  split; [exact Hmid|]. split; [exact Hul|]. split; [exact Huc|].
  do 3 eexists. split; [reflexivity|]. split; [reflexivity|]. split; [reflexivity|].
  repeat rewrite ?RegexpFacts.length_append, ?RegexpFacts.append_nil_r.
  cbn [String.length append].
  repeat rewrite ?RegexpFacts.length_append. cbn [String.length].
  repeat (f_equal; try lia).
Qed.

(** Equations between concatenations, up to bracketing. *)
Ltac string_assoc :=
  repeat first [rewrite !RegexpFacts.append_assoc | progress cbn [append]];
  reflexivity.

Lemma all_chars_ext (p q : ascii -> bool) (s : string) :
  (forall d, p d = q d) -> captures.all_chars p s = captures.all_chars q s.
Proof.
  intros H. induction s as [|c s IH]; cbn; [reflexivity|]. now rewrite H, IH.
Qed.

(** A string all of whose bytes are outside the class [[^c]] excludes is
    one that does not contain [c]. *)
Lemma all_chars_negated_class (c : ascii) (s : string) :
  captures.all_chars (regexp.class_mem true [(c, c)]) s = negb (Contains s (String c "")).
Proof.
  rewrite <- all_chars_not. apply all_chars_ext. intros d.
  unfold regexp.class_mem. cbn [existsb fst snd].
  now rewrite in_range_same, orb_false_r.
Qed.

Lemma all_chars_not_newline (s : string) :
  captures.all_chars (fun d => negb (Ascii.eqb d regexp.newline)) s =
  negb (Contains s (String regexp.newline "")).
Proof.
  rewrite <- all_chars_not. apply all_chars_ext. intros d. now rewrite Ascii.eqb_sym.
Qed.

Lemma pool_prefix_class (c : ascii) :
  regexp.class_mem false [("e", "e"); ("|", "|"); ("3", "3")]%char c = true <->
  (c = "e" \/ c = "|" \/ c = "3")%char.
Proof.
  unfold regexp.class_mem. cbn [existsb fst snd xorb].
  rewrite !in_range_same, orb_false_r, !orb_true_iff, !Ascii.eqb_eq.
  intuition congruence.
Qed.

(** What a successful search for the pool pattern has found. *)
Lemma poolRe_search_shape (url : string) (out : regexp.caps) :
  regexp.search
    (regexp.mkRegexp
       "zones/([^/]+)/instanceGroupManagers/(gk[e|3]-.*-([0-9a-f]{8})-grp)$"
       poolRe_prog 3) 0 url = Some out ->
  exists pre zone c mid uniq name,
    name = "gk" ++ String c ("-" ++ mid ++ "-" ++ uniq ++ "-grp") /\
    url = pre ++ "zones/" ++ zone ++ "/instanceGroupManagers/" ++ name /\
    map (regexp.submatch_text url) out =
      ["zones/" ++ zone ++ "/instanceGroupManagers/" ++ name; zone; name; uniq] /\
    zone <> "" /\
    Contains zone "/" = false /\
    (c = "e" \/ c = "|" \/ c = "3")%char /\
    Contains mid (String regexp.newline "") = false /\
    String.length uniq = 8%nat /\
    captures.all_chars (regexp.class_mem false [("0", "9"); ("a", "f")]%char) uniq = true.
Proof.
  intros H. apply search_soundC in H as (pre & w & rest & cs' & Hurl & HM & ->).
  cbn [regexp.prog regexp.numSubexp repeat] in HM.
  apply poolRe_wordC in HM
    as (zone & c & mid & uniq & name & En & -> & -> & Hzne & Hz & Hc & Hmid & Hul & Hu
        & p1 & p2 & p3 & E1 & E2 & E3 & ->).
  rewrite RegexpFacts.append_nil_r in Hurl.
  exists pre, zone, c, mid, uniq, name.
  split; [exact En|]. split; [exact Hurl|]. split.
  - cbn [regexp.set_cap map]. f_equal; [|f_equal; [|f_equal; [|f_equal]]].
    + apply submatch_at with (a := pre) (c := "").
      * now rewrite RegexpFacts.append_nil_r.
      * reflexivity.
      * reflexivity.
    + apply submatch_at with (a := pre ++ "zones/") (c := "/instanceGroupManagers/" ++ name).
      * rewrite Hurl. string_assoc.
      * rewrite E1. repeat rewrite RegexpFacts.length_append.
        cbn [String.length]. lia.
      * reflexivity.
    + apply submatch_at
        with (a := pre ++ "zones/" ++ zone ++ "/instanceGroupManagers/") (c := "").
      * rewrite Hurl, RegexpFacts.append_nil_r. string_assoc.
      * rewrite E2. repeat rewrite RegexpFacts.length_append.
        cbn [String.length]. lia.
      * reflexivity.
    + apply submatch_at
        with (a := pre ++ "zones/" ++ zone ++ "/instanceGroupManagers/"
                     ++ "gk" ++ String c ("-" ++ mid ++ "-"))
             (c := "-grp").
      * rewrite Hurl, En. string_assoc.
      * rewrite E3. repeat rewrite RegexpFacts.length_append.
        cbn [String.length]. lia.
      * reflexivity.
  - split; [exact Hzne|]. split.
    { rewrite all_chars_negated_class in Hz. now apply negb_true_iff in Hz. }
    split; [now apply pool_prefix_class|]. split.
    { rewrite all_chars_not_newline in Hmid. now apply negb_true_iff in Hmid. }
    auto.
Qed.

Lemma poolRe_shape_matches (pos : nat) (zone : string) (c : ascii) (mid uniq : string) :
  zone <> "" ->
  Contains zone "/" = false ->
  (c = "e" \/ c = "|" \/ c = "3")%char ->
  Contains mid (String regexp.newline "") = false ->
  String.length uniq = 8%nat ->
  captures.all_chars (regexp.class_mem false [("0", "9"); ("a", "f")]%char) uniq = true ->
  regexp.Matches poolRe_prog pos
    ("zones/" ++ zone ++ "/instanceGroupManagers/"
       ++ "gk" ++ String c ("-" ++ mid ++ "-" ++ uniq ++ "-grp")) "".
Proof.
  intros Hzne Hz Hc Hmid Hul Hu. unfold poolRe_prog. cbv zeta.
  apply Matches_lits. apply regexp.MConcat.
  { apply regexp.MCapture. apply Matches_plus_class; [exact Hzne|].
    rewrite all_chars_negated_class. now rewrite Hz. }
  apply (Matches_lits "/instanceGroupManagers/").
  rewrite <- (RegexpFacts.append_nil_r ("gk" ++ _)).
  apply regexp.MConcat; [|constructor].
  apply regexp.MCapture. apply (Matches_lits "gk").
  change (String c ("-" ++ mid ++ "-" ++ uniq ++ "-grp"))
    with (String c "" ++ ("-" ++ mid ++ "-" ++ uniq ++ "-grp")).
  apply regexp.MConcat.
  { constructor. now apply pool_prefix_class. }
  apply (Matches_lits "-"). apply regexp.MConcat.
  { apply Matches_star_any. rewrite all_chars_not_newline. now rewrite Hmid. }
  apply (Matches_lits "-"). apply regexp.MConcat.
  { apply regexp.MCapture. rewrite <- Hul. now apply Matches_repeat_class. }
  apply (Matches_lits "-gr" (regexp.Literal "p") _ "p"). constructor.
Qed.

(** X6.  Whatever URL [poolRe] is run on, [FindStringSubmatch] returns
    either nil, when there is no match, or exactly four strings: the URL
    ends with m[0], which is
    "zones/", m[1], "/instanceGroupManagers/" and m[2]; the zone m[1] is
    not empty and has no slash; the pool name m[2] is "gk", one of the
    bytes e, | and 3, a hyphen, a stretch without newline, a hyphen, m[3]
    and "-grp"; and the hash m[3] is eight bytes from 0-9a-f. *)
Theorem poolRe_submatches (url : string) :
  exists re,
    poolRe = Ok re /\
    ((regexp.FindStringSubmatch re url = [] /\ regexp.MatchString re url = false) \/
     exists pre zone c mid uniq name,
       regexp.MatchString re url = true /\
       name = "gk" ++ String c ("-" ++ mid ++ "-" ++ uniq ++ "-grp") /\
       url = pre ++ "zones/" ++ zone ++ "/instanceGroupManagers/" ++ name /\
       regexp.FindStringSubmatch re url =
         ["zones/" ++ zone ++ "/instanceGroupManagers/" ++ name; zone; name; uniq] /\
       zone <> "" /\
       Contains zone "/" = false /\
       (c = "e" \/ c = "|" \/ c = "3")%char /\
       Contains mid (String regexp.newline "") = false /\
       String.length uniq = 8%nat /\
       captures.all_chars (regexp.class_mem false [("0", "9"); ("a", "f")]%char) uniq
         = true).
Proof.
  eexists. split; [exact poolRe_compiles|].
  unfold regexp.FindStringSubmatch, regexp.MatchString.
  destruct (regexp.search _ 0 url) as [out|] eqn:E; [right | now left].
  destruct (poolRe_search_shape url out E)
    as (pre & zone & c & mid & uniq & name & H).
  exists pre, zone, c, mid, uniq, name. split; [reflexivity | exact H].
Qed.

(** X7.  [poolRe] matches a URL exactly when the URL ends with
    "zones/<zone>/instanceGroupManagers/gk<x>-<mid>-<hash>-grp", where
    <zone> is not empty and has no slash, <x> is one of e, | and 3, <mid>
    has no newline and <hash> is eight bytes from 0-9a-f; nothing may
    follow "-grp". *)
Theorem poolRe_matches_iff (url : string) :
  exists re,
    poolRe = Ok re /\
    (regexp.MatchString re url = true <->
     exists pre zone c mid uniq,
       url = pre ++ "zones/" ++ zone ++ "/instanceGroupManagers/"
                 ++ "gk" ++ String c ("-" ++ mid ++ "-" ++ uniq ++ "-grp") /\
       zone <> "" /\
       Contains zone "/" = false /\
       (c = "e" \/ c = "|" \/ c = "3")%char /\
       Contains mid (String regexp.newline "") = false /\
       String.length uniq = 8%nat /\
       captures.all_chars (regexp.class_mem false [("0", "9"); ("a", "f")]%char) uniq
         = true).
Proof.
  eexists. split; [exact poolRe_compiles|]. split.
  - unfold regexp.MatchString.
    destruct (regexp.search _ 0 url) as [out|] eqn:E; [|discriminate]. intros _.
    apply poolRe_search_shape in E
      as (pre & zone & c & mid & uniq & name & -> & -> & _ & H).
    now exists pre, zone, c, mid, uniq.
  - intros (pre & zone & c & mid & uniq & -> & Hzne & Hz & Hc & Hmid & Hul & Hu).
    apply MatchString_iff.
    exists pre, ("zones/" ++ zone ++ "/instanceGroupManagers/"
                  ++ "gk" ++ String c ("-" ++ mid ++ "-" ++ uniq ++ "-grp")), "".
    split; [now rewrite RegexpFacts.append_nil_r|].
    cbn [regexp.prog]. now apply poolRe_shape_matches.
Qed.

(** ** The URL pattern *)

Lemma urlRe_compiles :
  urlRe =
  Ok (regexp.mkRegexp "https://.*/"
        (regexp.lits "https://"
           (regexp.Concat (regexp.Star regexp.AnyCharNotNL) (regexp.Literal "/")))
        0).
Proof. vm_compute. reflexivity. Qed.

(** X8.  [urlRe] matches a text exactly when the text holds "https://"
    followed, before any newline, by a slash. *)
Theorem urlRe_matches_iff (s : string) :
  exists re,
    urlRe = Ok re /\
    (regexp.MatchString re s = true <->
     exists pre mid post,
       s = pre ++ "https://" ++ mid ++ "/" ++ post /\
       Contains mid (String regexp.newline "") = false).
Proof.
  eexists. split; [exact urlRe_compiles|]. split.
  - unfold regexp.MatchString.
    destruct (regexp.search _ 0 s) as [out|] eqn:E; [|discriminate]. intros _.
    apply search_soundC in E as (pre & w & post & cs' & -> & HM & _).
    cbn [regexp.prog] in HM.
    apply MC_lits_inv in HM as (w1 & -> & HM).
    apply MC_concat_inv in HM as (mid & w2 & cs1 & -> & Hmid & Hs).
    apply (MC_star_chars _ _ _ _ _ _ _ char_pattern_any) in Hmid as (_ & Hmid).
    apply MC_literal_inv in Hs as (-> & _).
    exists pre, mid, post. split; [string_assoc|].
    rewrite all_chars_not_newline in Hmid. now apply negb_true_iff in Hmid.
  - intros (pre & mid & post & -> & Hmid).
    apply MatchString_iff.
    exists pre, ("https://" ++ mid ++ "/"), post.
    split; [string_assoc|].
    cbn [regexp.prog]. apply Matches_lits. apply regexp.MConcat; [|constructor].
    apply Matches_star_any. rewrite all_chars_not_newline. now rewrite Hmid.
Qed.
